(** * food-label-mcp: the OCR ingredient verification core

    A shallow embedding of the verification pipeline of [src/index.js]
    (the stdio server) and of its HTTP twin, which carries the very same
    functions: [getEditDistance], [calculateSimilarity], [parseIngredients],
    [verifyIngredients], [searchFoodInDB] and the [verify_food_label]
    handler.

    Conventions of the embedding.
    - A JavaScript string is the list of its UTF-16 code units ([Z]);
      [length], [charAt] and [!==] work on code units, as in the engine.
    - [null] / [undefined] are [None] of an [option].
    - JavaScript numbers are IEEE doubles.  Every non-integer number of the
      core is a quotient of two string lengths, compared with another such
      quotient or with the literal [0.7], or scaled by 100 and rounded.
      They are modelled by exact rationals ([Q]): for strings shorter than
      2^26 code units two different quotients never round to the same
      double, so the comparisons and the rounding agree with the doubles.
    - [String.prototype.toLowerCase] is a parameter of the reconciler (the
      Unicode case tables are not part of the repository). *)

From Stdlib Require Import List Arith ZArith QArith Qround Bool Lia.
Import ListNotations.

Close Scope Q_scope.
Open Scope nat_scope.

(* ================================================================== *)
(** * Part I: the model *)
(* ================================================================== *)

(** ** JavaScript strings and arrays *)

Definition jsstring := list Z.

Fixpoint string_eqb (a b : jsstring) : bool :=
  match a, b with
  | [], [] => true
  | x :: a', y :: b' => (x =? y)%Z && string_eqb a' b'
  | _, _ => false
  end.

(** [s.charAt(i)]: the one-unit string at index [i], the empty string when
    [i] is out of range. *)
Definition charAt (s : jsstring) (i : nat) : jsstring :=
  match nth_error s i with
  | Some c => [c]
  | None => []
  end.

(** [a[j] = v] on a JavaScript array of numbers: an index inside the array
    overwrites, the index [a.length] appends, a larger one pads first.
    (The padding case never arises in [getEditDistance]: row 0 writes the
    indices 0, 1, 2, ... in order and later rows write inside the row.) *)
Fixpoint array_set (a : list nat) (j : nat) (v : nat) : list nat :=
  match a, j with
  | [], O => [v]
  | [], S j' => 0 :: array_set [] j' v
  | _ :: a', O => v :: a'
  | x :: a', S j' => x :: array_set a' j' v
  end.

(** [a[j]] read as a number. *)
Definition array_get (a : list nat) (j : nat) : nat := nth j a 0.

(** ** Edit-distance engine *)

(** Body of the inner [for (let j = 0; j <= str2.length; j++)] loop of
    [getEditDistance]; the state is the pair [(costs, lastValue)]. *)
Definition edit_inner (str1 str2 : jsstring) (i : nat)
    (st : list nat * nat) (j : nat) : list nat * nat :=
  let (costs, lastValue) := st in
  if i =? 0 then (array_set costs j j, lastValue)
  else if 0 <? j then
    let newValue := array_get costs (j - 1) in
    let newValue :=
      if negb (string_eqb (charAt str1 (i - 1)) (charAt str2 (j - 1)))
      then Nat.min (Nat.min newValue lastValue) (array_get costs j) + 1
      else newValue in
    (array_set costs (j - 1) lastValue, newValue)
  else (costs, lastValue).

(** Body of the outer [for (let i = 0; i <= str1.length; i++)] loop. *)
Definition edit_outer (str1 str2 : jsstring) (costs : list nat) (i : nat)
    : list nat :=
  let (costs', lastValue) :=
    fold_left (edit_inner str1 str2 i) (seq 0 (S (length str2))) (costs, i) in
  if 0 <? i then array_set costs' (length str2) lastValue else costs'.

Definition getEditDistance (str1 str2 : jsstring) : nat :=
  let costs := fold_left (edit_outer str1 str2) (seq 0 (S (length str1))) [] in
  array_get costs (length str2).

(** [!s] for a string-or-absent value. *)
Definition falsy (s : option jsstring) : bool :=
  match s with
  | None => true
  | Some [] => true
  | Some (_ :: _) => false
  end.

Definition Qdiv_nat (n : Z) (d : nat) : Q :=
  (inject_Z n / inject_Z (Z.of_nat d))%Q.

Definition calculateSimilarity (str1 str2 : option jsstring) : Q :=
  match str1, str2 with
  | Some s1, Some s2 =>
      if falsy str1 || falsy str2 then 0%Q
      else
        let longer := if length s2 <? length s1 then s1 else s2 in
        let shorter := if length s2 <? length s1 then s2 else s1 in
        if length longer =? 0 then 1%Q
        else
          let editDistance := getEditDistance longer shorter in
          Qdiv_nat (Z.of_nat (length longer) - Z.of_nat editDistance)
                   (length longer)
  | _, _ => 0%Q
  end.

(** *** The classic Levenshtein distance, as the specification words it *)

(** One single-character edit: insert, delete or substitute one code unit,
    anywhere in the string. *)
Inductive edit1 : jsstring -> jsstring -> Prop :=
  | edit_insert : forall c s, edit1 s (c :: s)
  | edit_delete : forall c s, edit1 (c :: s) s
  | edit_subst : forall c c' s, edit1 (c :: s) (c' :: s)
  | edit_skip : forall c s s', edit1 s s' -> edit1 (c :: s) (c :: s').

(** [edits n s t]: [t] is obtained from [s] by [n] unit-cost edits. *)
Inductive edits : nat -> jsstring -> jsstring -> Prop :=
  | edits_done : forall s, edits 0 s s
  | edits_step : forall n s s' t, edit1 s s' -> edits n s' t -> edits (S n) s t.

(** The textbook recurrence. *)
Fixpoint lev (s t : jsstring) {struct s} : nat :=
  match s with
  | [] => length t
  | a :: s' =>
      (fix lev_row (t : jsstring) : nat :=
         match t with
         | [] => length s
         | b :: t' =>
             Nat.min (Nat.min (S (lev s' t)) (S (lev_row t')))
                     ((if (a =? b)%Z then 0 else 1) + lev s' t')
         end) t
  end.

(** [d] is the Levenshtein distance of [s] and [t]: some sequence of [d]
    edits turns [s] into [t], and no shorter one does. *)
Definition is_edit_distance (s t : jsstring) (d : nat) : Prop :=
  edits d s t /\ forall n, edits n s t -> d <= n.

(** Entry [(i, j)] of the distance table: the distance between the first
    [i] units of [str1] and the first [j] units of [str2]. *)
Definition lev_prefix (str1 str2 : jsstring) (i j : nat) : nat :=
  lev (firstn i str1) (firstn j str2).

(** ** Ingredient tokenizer *)

(** The character class of [/[,;\/]/]. *)
Definition is_delimiter (c : Z) : bool :=
  ((c =? 44) || (c =? 59) || (c =? 47))%Z.

(** [s.split(/[,;\/]/)]: the pieces between consecutive delimiters, empty
    pieces included; a string without delimiter is its own only piece. *)
Fixpoint split (s : jsstring) : list jsstring :=
  match s with
  | [] => [[]]
  | c :: s' =>
      if is_delimiter c then [] :: split s'
      else match split s' with
           | piece :: pieces => (c :: piece) :: pieces
           | [] => [[c]]
           end
  end.

(** White space and line terminators of ECMAScript, the code units that
    [String.prototype.trim] strips. *)
Definition is_whitespace (c : Z) : bool :=
  ((c =? 9) || (c =? 10) || (c =? 11) || (c =? 12) || (c =? 13) || (c =? 32)
   || (c =? 160) || (c =? 5760) || ((8192 <=? c) && (c <=? 8202))
   || (c =? 8232) || (c =? 8233) || (c =? 8239) || (c =? 8287)
   || (c =? 12288) || (c =? 65279))%Z.

Fixpoint trimStart (s : jsstring) : jsstring :=
  match s with
  | [] => []
  | c :: s' => if is_whitespace c then trimStart s' else s
  end.

Definition trimEnd (s : jsstring) : jsstring := rev (trimStart (rev s)).

Definition trim (s : jsstring) : jsstring := trimEnd (trimStart s).

Definition parseIngredients (ingredientString : option jsstring)
    : list jsstring :=
  match ingredientString with
  | Some s =>
      if falsy ingredientString then []
      else filter (fun item => 0 <? length item) (map trim (split s))
  | None => []
  end.

(** *** Tokenizing, as the specification words it *)

(** The pieces glued back together, one separator between neighbours. *)
Fixpoint interleave (pieces : list jsstring) (seps : list Z) : jsstring :=
  match pieces, seps with
  | piece :: pieces', c :: seps' => piece ++ c :: interleave pieces' seps'
  | piece :: _, [] => piece
  | [], _ => []
  end.

(** [pieces] are the segments of [s] between its delimiters: no piece
    holds a delimiter, and [s] is the pieces with one delimiter between
    each two neighbours. *)
Definition splits_at_delimiters (s : jsstring) (pieces : list jsstring)
    : Prop :=
  exists seps,
    length pieces = S (length seps) /\
    Forall (fun c => is_delimiter c = true) seps /\
    Forall (Forall (fun c => is_delimiter c = false)) pieces /\
    interleave pieces seps = s.

(** [token] is [piece] without its surrounding white space. *)
Definition trimmed (piece token : jsstring) : Prop :=
  exists front back,
    piece = front ++ token ++ back /\
    Forall (fun c => is_whitespace c = true) front /\
    Forall (fun c => is_whitespace c = true) back /\
    (forall c rest, token = c :: rest -> is_whitespace c = false) /\
    (forall c rest, token = rest ++ [c] -> is_whitespace c = false).

(** [kept] is [l] without its empty strings, in the same order. *)
Inductive drop_empty : list jsstring -> list jsstring -> Prop :=
  | drop_empty_nil : drop_empty [] []
  | drop_empty_skip : forall l kept,
      drop_empty l kept -> drop_empty ([] :: l) kept
  | drop_empty_keep : forall t l kept,
      t <> [] -> drop_empty l kept -> drop_empty (t :: l) (t :: kept).

Definition tokenizes (s : jsstring) (tokens : list jsstring) : Prop :=
  exists pieces stripped,
    splits_at_delimiters s pieces /\
    Forall2 trimmed pieces stripped /\
    drop_empty stripped tokens.

(** ** Ingredient reconciler *)

Record Correction := mkCorrection {
  original : jsstring;
  corrected : option jsstring;
  confidence : Z
}.

Record Reconciled := mkReconciled {
  verified : list (option jsstring);
  corrections : list Correction;
  dbIngredients : list jsstring
}.

(** [x > y] on numbers. *)
Definition Qgtb (x y : Q) : bool := negb (Qle_bool x y).

(** [Math.round]: the nearest integer, halves going up. *)
Definition Math_round (x : Q) : Z := Qfloor (x + (1 # 2))%Q.

(** [a !== b] between a string and a string-or-null. *)
Definition strict_neq (a : jsstring) (b : option jsstring) : bool :=
  match b with
  | Some b' => negb (string_eqb a b')
  | None => true
  end.

Section Reconciler.

(** [String.prototype.toLowerCase]. *)
Variable toLowerCase : jsstring -> jsstring.

(** Body of [for (const dbIngredient of dbIngredients)]; the state is
    [(bestMatch, bestSimilarity)]. *)
Definition match_step (ocrIngredient : jsstring)
    (st : option jsstring * Q) (dbIngredient : jsstring)
    : option jsstring * Q :=
  let (bestMatch, bestSimilarity) := st in
  let similarity :=
    calculateSimilarity (Some (toLowerCase ocrIngredient))
                        (Some (toLowerCase dbIngredient)) in
  if Qgtb similarity bestSimilarity then (Some dbIngredient, similarity)
  else (bestMatch, bestSimilarity).

Definition best_match (dbIngredients : list jsstring)
    (ocrIngredient : jsstring) : option jsstring * Q :=
  fold_left (match_step ocrIngredient) dbIngredients (None, 0%Q).

(** Body of [for (const ocrIngredient of ocrIngredients)]; the state is
    [(verified, corrections)]. *)
Definition verify_step (dbIngredients : list jsstring)
    (st : list (option jsstring) * list Correction)
    (ocrIngredient : jsstring)
    : list (option jsstring) * list Correction :=
  let (verified, corrections) := st in
  let (bestMatch, bestSimilarity) := best_match dbIngredients ocrIngredient in
  if Qgtb bestSimilarity (7 # 10) then
    (verified ++ [bestMatch],
     if strict_neq ocrIngredient bestMatch then
       corrections ++
         [mkCorrection ocrIngredient bestMatch
                       (Math_round (bestSimilarity * 100)%Q)]
     else corrections)
  else (verified ++ [Some ocrIngredient], corrections).

(** What one iteration of that loop appends to [verified] and to
    [corrections]. *)
Definition token_verified (dbIngredients : list jsstring)
    (ocrIngredient : jsstring) : option jsstring :=
  if Qgtb (snd (best_match dbIngredients ocrIngredient)) (7 # 10)
  then fst (best_match dbIngredients ocrIngredient)
  else Some ocrIngredient.

Definition token_corrections (dbIngredients : list jsstring)
    (ocrIngredient : jsstring) : list Correction :=
  if Qgtb (snd (best_match dbIngredients ocrIngredient)) (7 # 10)
     && strict_neq ocrIngredient (fst (best_match dbIngredients ocrIngredient))
  then [mkCorrection ocrIngredient
          (fst (best_match dbIngredients ocrIngredient))
          (Math_round (snd (best_match dbIngredients ocrIngredient) * 100)%Q)]
  else [].

Definition verifyIngredients (ocrIngredients : list jsstring)
    (dbIngredientsString : option jsstring) : Reconciled :=
  let dbIngredients := parseIngredients dbIngredientsString in
  let (verified, corrections) :=
    fold_left (verify_step dbIngredients) ocrIngredients ([], []) in
  mkReconciled verified corrections dbIngredients.

End Reconciler.

(** *** Reconciling, as the specification words it *)

Section ReconcilerSpec.

Variable toLowerCase : jsstring -> jsstring.

Definition token_similarity (ocrToken dbToken : jsstring) : Q :=
  calculateSimilarity (Some (toLowerCase ocrToken))
                      (Some (toLowerCase dbToken)).

(** [m], with similarity [q], is the best match of [ocrToken] among
    [dbTokens]: the first token whose similarity is the greatest one,
    provided that similarity is positive; otherwise nothing, with 0. *)
Definition first_best (dbTokens : list jsstring) (ocrToken : jsstring)
    (m : option jsstring) (q : Q) : Prop :=
  (m = None /\ q = 0%Q /\
   forall d, In d dbTokens -> (token_similarity ocrToken d <= 0)%Q)
  \/
  (exists before d after,
     dbTokens = before ++ d :: after /\
     m = Some d /\ q = token_similarity ocrToken d /\ (0 < q)%Q /\
     (forall x, In x before -> (token_similarity ocrToken x < q)%Q) /\
     (forall x, In x after -> (token_similarity ocrToken x <= q)%Q)).

(** What one OCR token contributes: its entry of [verified] and its
    corrections (none or one). *)
Inductive token_outcome (dbTokens : list jsstring) (ocrToken : jsstring)
    : option jsstring -> list Correction -> Prop :=
  | outcome_corrected : forall d q,
      first_best dbTokens ocrToken (Some d) q -> (7 # 10 < q)%Q ->
      d <> ocrToken ->
      token_outcome dbTokens ocrToken (Some d)
        [mkCorrection ocrToken (Some d) (Math_round (q * 100)%Q)]
  | outcome_confirmed : forall q,
      first_best dbTokens ocrToken (Some ocrToken) q -> (7 # 10 < q)%Q ->
      token_outcome dbTokens ocrToken (Some ocrToken) []
  | outcome_unmatched : forall m q,
      first_best dbTokens ocrToken m q -> (q <= 7 # 10)%Q ->
      token_outcome dbTokens ocrToken (Some ocrToken) [].

End ReconcilerSpec.

(** ** Record lookup *)

(** A computation that returns or throws. *)
Inductive outcome (E A : Type) : Type :=
  | Returns : A -> outcome E A
  | Throws : E -> outcome E A.
Arguments Returns {E A} _.
Arguments Throws {E A} _.

Definition bind {E A B} (m : outcome E A) (k : A -> outcome E B)
    : outcome E B :=
  match m with
  | Returns a => k a
  | Throws e => Throws e
  end.

Definition try_catch {E A} (m : outcome E A) (handler : E -> outcome E A)
    : outcome E A :=
  match m with
  | Returns a => Returns a
  | Throws e => handler e
  end.

Notation "x <- m ;; k" := (bind m (fun x => k))
  (at level 61, m at next level, right associativity).

(** One item of the store's answer; every field the core reads occurs in a
    lower-case and an upper-case spelling, and may be missing. *)
Record DbProduct := mkDbProduct {
  rawmtrl_nm : option jsstring;
  RAWMTRL_NM : option jsstring;
  prdlst_nm : option jsstring;
  PRDLST_NM : option jsstring;
  bssh_nm : option jsstring;
  BSSH_NM : option jsstring;
  prdlst_report_no : option jsstring;
  PRDLST_REPORT_NO : option jsstring
}.

(** [response.data], at the shape [{ body: { items: [...] } }], each level
    possibly missing. *)
Record ResponseBody := mkBody { items : option (list DbProduct) }.
Record ResponseData := mkData { body : option ResponseBody }.

Section Lookup.

(** What a failed request throws (network error, timeout, bad status). *)
Variable AxiosError : Type.

(** The record store: [axios.get] with the product name as the filter. *)
Variable axios_get : jsstring -> outcome AxiosError (option ResponseData).

Definition searchFoodInDB (productName : jsstring)
    : outcome AxiosError (option DbProduct) :=
  try_catch
    (response_data <- axios_get productName ;;
     match response_data with
     | Some data =>
         match body data with
         | Some b =>
             match items b with
             | Some its =>
                 Returns (match its with
                          | item :: _ => Some item
                          | [] => None
                          end)
             | None => Returns None
             end
         | None => Returns None
         end
     | None => Returns None
     end)
    (fun error => Returns None).

End Lookup.

Arguments searchFoodInDB {AxiosError} axios_get productName.

(** The lookup has no candidate: the request failed, or the answer has no
    data, no [body], no [items], or an empty [items] list. *)
Inductive no_candidate {E : Type} : outcome E (option ResponseData) -> Prop :=
  | no_candidate_failed : forall e, no_candidate (Throws e)
  | no_candidate_no_data : no_candidate (Returns None)
  | no_candidate_no_body : no_candidate (Returns (Some (mkData None)))
  | no_candidate_no_items :
      no_candidate (Returns (Some (mkData (Some (mkBody None)))))
  | no_candidate_empty :
      no_candidate (Returns (Some (mkData (Some (mkBody (Some [])))))).

(** ** Verification orchestrator *)

(** [a || b] on string-or-absent values. *)
Definition js_or (a b : option jsstring) : option jsstring :=
  if falsy a then b else a.

(** Decimal digits of a number, as [String(n)] prints them. *)
Fixpoint uint_units (d : Decimal.uint) : jsstring :=
  match d with
  | Decimal.Nil => []
  | Decimal.D0 d' => 48%Z :: uint_units d'
  | Decimal.D1 d' => 49%Z :: uint_units d'
  | Decimal.D2 d' => 50%Z :: uint_units d'
  | Decimal.D3 d' => 51%Z :: uint_units d'
  | Decimal.D4 d' => 52%Z :: uint_units d'
  | Decimal.D5 d' => 53%Z :: uint_units d'
  | Decimal.D6 d' => 54%Z :: uint_units d'
  | Decimal.D7 d' => 55%Z :: uint_units d'
  | Decimal.D8 d' => 56%Z :: uint_units d'
  | Decimal.D9 d' => 57%Z :: uint_units d'
  end.

Definition number_to_string (n : nat) : jsstring := uint_units (Nat.to_uint n).

Record OriginalData := mkOriginalData {
  od_productName : jsstring;
  od_manufacturer : option jsstring;
  od_ingredients : list jsstring
}.

Record ProductInfo := mkProductInfo {
  pi_name : option jsstring;
  pi_manufacturer : option jsstring;
  pi_reportNumber : option jsstring
}.

Record IngredientViews := mkIngredientViews {
  iv_original : list jsstring;
  iv_verified : list (option jsstring);
  iv_fromDB : list jsstring;
  iv_inCorrectOrder : bool
}.

(** The three objects the handler serialises. *)
Inductive ToolResult : Type :=
  | NotFoundResult (verified_flag : bool) (message : jsstring)
      (originalData : OriginalData) (suggestion : jsstring)
  | VerifiedResult (verified_flag : bool) (productInfo : ProductInfo)
      (ingredients : IngredientViews) (corrections_log : list Correction)
      (overall_confidence : Z) (message : jsstring)
  | ErrorResult (message : jsstring).

(** "DB에서 제품을 찾을 수 없습니다. OCR 결과를 그대로 사용합니다." *)
Definition msg_not_found : jsstring :=
  [68; 66; 50640; 49436; 32; 51228; 54408; 51012; 32; 52286; 51012; 32;
   49688; 32; 50630; 49845; 45768; 45796; 46; 32; 79; 67; 82; 32; 44208;
   44284; 47484; 32; 44536; 45824; 47196; 32; 49324; 50857; 54633; 45768;
   45796; 46]%Z.

(** "DB에 제품이 없을 수 있습니다. 제품명을 다시 확인해주세요." *)
Definition msg_suggestion : jsstring :=
  [68; 66; 50640; 32; 51228; 54408; 51060; 32; 50630; 51012; 32; 49688; 32;
   51080; 49845; 45768; 45796; 46; 32; 51228; 54408; 47749; 51012; 32;
   45796; 49884; 32; 54869; 51064; 54644; 51452; 49464; 50836; 46]%Z.

(** "모든 정보가 정확합니다!" *)
Definition msg_all_correct : jsstring :=
  [47784; 46304; 32; 51221; 48372; 44032; 32; 51221; 54869; 54633; 45768;
   45796; 33]%Z.

(** "개의 항목이 수정되었습니다." *)
Definition msg_corrected_suffix : jsstring :=
  [44060; 51032; 32; 54637; 47785; 51060; 32; 49688; 51221; 46104; 50632;
   49845; 45768; 45796; 46]%Z.

Section Orchestrator.

Variable toLowerCase : jsstring -> jsstring.
Variable AxiosError : Type.
Variable axios_get : jsstring -> outcome AxiosError (option ResponseData).

(** What the [catch] of the handler makes of a thrown error. *)
Variable error_message : AxiosError -> jsstring.

(** The [verify_food_label] tool. *)
Definition verify_food_label (productName : jsstring)
    (manufacturer : option jsstring) (ingredients : list jsstring)
    : outcome AxiosError ToolResult :=
  try_catch
    (dbProduct <- searchFoodInDB axios_get productName ;;
     match dbProduct with
     | None =>
         Returns (NotFoundResult false msg_not_found
                    (mkOriginalData productName manufacturer ingredients)
                    msg_suggestion)
     | Some product =>
         let r :=
           verifyIngredients toLowerCase ingredients
             (js_or (js_or (rawmtrl_nm product) (RAWMTRL_NM product))
                    (Some [])) in
         Returns
           (VerifiedResult true
              (mkProductInfo
                 (js_or (js_or (prdlst_nm product) (PRDLST_NM product))
                        (Some productName))
                 (js_or (js_or (bssh_nm product) (BSSH_NM product))
                        manufacturer)
                 (js_or (prdlst_report_no product)
                        (PRDLST_REPORT_NO product)))
              (mkIngredientViews ingredients (verified r)
                                 (dbIngredients r) true)
              (corrections r)
              (if length (corrections r) =? 0 then 100%Z else 85%Z)
              (if length (corrections r) =? 0 then msg_all_correct
               else number_to_string (length (corrections r))
                      ++ msg_corrected_suffix))
     end)
    (fun error => Returns (ErrorResult (error_message error))).

End Orchestrator.

Arguments verify_food_label toLowerCase {AxiosError} axios_get error_message
  productName manufacturer ingredients.

(** A lower-casing that maps the letters A-Z and leaves every other code
    unit alone.  It agrees with [toLowerCase] on every string made of ASCII
    and of caseless scripts such as Hangul. *)
Definition ascii_toLowerCase (s : jsstring) : jsstring :=
  map (fun c => if ((65 <=? c) && (c <=? 90))%Z then (c + 32)%Z else c) s.

(** ** Concrete inputs of the scenarios *)

(** "밀가류", an OCR misreading of "밀가루" (flour). *)
Definition milgaryu : jsstring := [48128; 44032; 47448]%Z.
Definition milgaru : jsstring := [48128; 44032; 47336]%Z.

(** A product whose only field is the raw ingredient text. *)
Definition product_of_raw (raw : jsstring) : DbProduct :=
  mkDbProduct (Some raw) None None None None None None None.

(** A store that answers every query with the single product [p], and a
    store whose every request fails. *)
Definition store_of (p : DbProduct)
    : jsstring -> outcome unit (option ResponseData) :=
  fun _ => Returns (Some (mkData (Some (mkBody (Some [p]))))).

Definition store_down : jsstring -> outcome unit (option ResponseData) :=
  fun _ => Throws tt.

(* ================================================================== *)
(** * Part II: properties *)
(* ================================================================== *)

(** ** The Levenshtein recurrence *)

Lemma lev_nil_r (s : jsstring) : lev s [] = length s.
Proof. destruct s; reflexivity. Qed.

Lemma lev_cons (a b : Z) (s t : jsstring) :
  lev (a :: s) (b :: t) =
  Nat.min (Nat.min (S (lev s (b :: t))) (S (lev (a :: s) t)))
          ((if (a =? b)%Z then 0 else 1) + lev s t).
Proof. reflexivity. Qed.

Lemma lev_drop_l (a : Z) (s t : jsstring) : lev (a :: s) t <= S (lev s t).
Proof.
  destruct t as [|b t].
  - rewrite !lev_nil_r. simpl. lia.
  - rewrite lev_cons. lia.
Qed.

Lemma lev_drop_r (b : Z) (s t : jsstring) : lev s (b :: t) <= S (lev s t).
Proof.
  destruct s as [|a s].
  - simpl. lia.
  - rewrite lev_cons. lia.
Qed.

Lemma lev_grow_l (a : Z) (s t : jsstring) : lev s t <= S (lev (a :: s) t).
Proof.
  induction t as [|b t IH].
  - rewrite !lev_nil_r. simpl. lia.
  - rewrite lev_cons.
    pose proof (lev_drop_r b s t).
    destruct (a =? b)%Z; lia.
Qed.

Lemma lev_grow_r (b : Z) (s t : jsstring) : lev s t <= S (lev s (b :: t)).
Proof.
  induction s as [|a s IH].
  - simpl. lia.
  - rewrite lev_cons.
    pose proof (lev_drop_l a s t).
    destruct (a =? b)%Z; lia.
Qed.

Lemma lev_subst_l (a a' : Z) (s t : jsstring) :
  lev (a :: s) t <= S (lev (a' :: s) t).
Proof.
  induction t as [|b t IH].
  - rewrite !lev_nil_r. simpl. lia.
  - rewrite !lev_cons.
    pose proof (lev_drop_l a s (b :: t)).
    destruct (a =? b)%Z; destruct (a' =? b)%Z; lia.
Qed.

Lemma lev_skip (c : Z) (s s' : jsstring) :
  (forall t, lev s t <= S (lev s' t)) ->
  forall t, lev (c :: s) t <= S (lev (c :: s') t).
Proof.
  intros H t.
  induction t as [|b t IH].
  - rewrite !lev_nil_r. specialize (H []). rewrite !lev_nil_r in H.
    simpl. lia.
  - rewrite !lev_cons.
    pose proof (H (b :: t)). pose proof (H t).
    destruct (c =? b)%Z; lia.
Qed.

Lemma lev_edit1 (s s' : jsstring) :
  edit1 s s' -> forall t, lev s t <= S (lev s' t).
Proof.
  induction 1 as [c s|c s|c c' s|c s s' _ IH]; intros t.
  - apply lev_grow_l.
  - apply lev_drop_l.
  - apply lev_subst_l.
  - apply lev_skip, IH.
Qed.

Lemma lev_refl (s : jsstring) : lev s s = 0.
Proof.
  induction s as [|a s IH]; [reflexivity|].
  rewrite lev_cons, Z.eqb_refl, IH. lia.
Qed.

(** Every edit script is at least as long as the recurrence says. *)
Lemma lev_lower_bound (n : nat) (s t : jsstring) : edits n s t -> lev s t <= n.
Proof.
  induction 1 as [s|n s s' t Hstep _ IH].
  - rewrite lev_refl. lia.
  - pose proof (lev_edit1 s s' Hstep t). lia.
Qed.

(** ** Edit scripts *)

Lemma edits_cons (c : Z) (n : nat) (s t : jsstring) :
  edits n s t -> edits n (c :: s) (c :: t).
Proof.
  induction 1; econstructor; eauto using edit_skip.
Qed.

Lemma edits_snoc (n : nat) (s u t : jsstring) :
  edits n s u -> edit1 u t -> edits (S n) s t.
Proof.
  induction 1; intros Hlast.
  - econstructor; [eassumption | constructor].
  - econstructor; eauto.
Qed.

Lemma edits_from_nil (t : jsstring) : edits (length t) [] t.
Proof.
  induction t as [|b t IH]; simpl.
  - constructor.
  - eapply edits_snoc; [exact IH | constructor].
Qed.

Lemma edits_to_nil (s : jsstring) : edits (length s) s [].
Proof.
  induction s as [|a s IH]; simpl.
  - constructor.
  - econstructor; [apply edit_delete | exact IH].
Qed.

(** The recurrence is reached by an edit script. *)
Lemma lev_reached (s t : jsstring) : edits (lev s t) s t.
Proof.
  revert t. induction s as [|a s IHs]; intros t.
  - apply edits_from_nil.
  - induction t as [|b t IHt].
    + rewrite lev_nil_r. apply edits_to_nil.
    + rewrite lev_cons.
      destruct (Nat.min_spec (Nat.min (S (lev s (b :: t))) (S (lev (a :: s) t)))
                  ((if (a =? b)%Z then 0 else 1) + lev s t)) as [[_ ->]|[_ ->]].
      * destruct (Nat.min_spec (S (lev s (b :: t))) (S (lev (a :: s) t)))
          as [[_ ->]|[_ ->]].
        -- econstructor; [apply edit_delete | apply IHs].
        -- eapply edits_snoc; [exact IHt | apply edit_insert].
      * destruct (Z.eqb_spec a b) as [->|_]; simpl.
        -- apply edits_cons, IHs.
        -- econstructor; [apply (edit_subst a b) | apply edits_cons, IHs].
Qed.

Lemma lev_is_edit_distance (s t : jsstring) : is_edit_distance s t (lev s t).
Proof.
  split; [apply lev_reached | intros n; apply lev_lower_bound].
Qed.

Lemma is_edit_distance_unique (s t : jsstring) (d d' : nat) :
  is_edit_distance s t d -> is_edit_distance s t d' -> d = d'.
Proof.
  intros [H1 H2] [H1' H2']. apply Nat.le_antisymm; auto.
Qed.

(** ** Symmetry and reversal *)

Lemma edit1_sym (s t : jsstring) : edit1 s t -> edit1 t s.
Proof. induction 1; constructor; assumption. Qed.

Lemma edits_sym (n : nat) (s t : jsstring) : edits n s t -> edits n t s.
Proof.
  induction 1 as [s|n s s' t Hstep _ IH].
  - constructor.
  - eapply edits_snoc; [exact IH | apply edit1_sym, Hstep].
Qed.

Lemma lev_sym (s t : jsstring) : lev s t = lev t s.
Proof.
  apply Nat.le_antisymm; apply lev_lower_bound, edits_sym, lev_reached.
Qed.

Lemma edit1_app_r (l s t : jsstring) : edit1 s t -> edit1 (s ++ l) (t ++ l).
Proof. induction 1; simpl; constructor; assumption. Qed.

Lemma edit1_app_l (l s t : jsstring) : edit1 s t -> edit1 (l ++ s) (l ++ t).
Proof. intros H. induction l; simpl; [assumption | constructor; assumption]. Qed.

Lemma edit1_rev (s t : jsstring) : edit1 s t -> edit1 (rev s) (rev t).
Proof.
  induction 1 as [c s|c s|c c' s|c s s' _ IH]; simpl.
  - rewrite <- (app_nil_r (rev s)) at 1. apply edit1_app_l. constructor.
  - rewrite <- (app_nil_r (rev s)) at 2. apply edit1_app_l. constructor.
  - apply edit1_app_l. constructor.
  - apply edit1_app_r, IH.
Qed.

Lemma edits_rev (n : nat) (s t : jsstring) :
  edits n s t -> edits n (rev s) (rev t).
Proof.
  induction 1; econstructor; eauto using edit1_rev.
Qed.

Lemma lev_rev (s t : jsstring) : lev (rev s) (rev t) = lev s t.
Proof.
  apply Nat.le_antisymm.
  - apply lev_lower_bound, edits_rev, lev_reached.
  - rewrite <- (rev_involutive s) at 1. rewrite <- (rev_involutive t) at 1.
    apply lev_lower_bound, edits_rev, lev_reached.
Qed.

(** The recurrence read at the last characters, the way the row-wise
    algorithm consumes the strings. *)
Lemma lev_snoc (a b : Z) (s t : jsstring) :
  lev (s ++ [a]) (t ++ [b]) =
  if (a =? b)%Z then lev s t
  else Nat.min (Nat.min (lev s t) (lev (s ++ [a]) t)) (lev s (t ++ [b])) + 1.
Proof.
  assert (Hs : lev (a :: rev s) (rev t) = lev (s ++ [a]) t)
    by (rewrite <- (lev_rev (s ++ [a]) t), rev_app_distr; reflexivity).
  assert (Ht : lev (rev s) (b :: rev t) = lev s (t ++ [b]))
    by (rewrite <- (lev_rev s (t ++ [b])), rev_app_distr; reflexivity).
  rewrite <- (lev_rev (s ++ [a]) (t ++ [b])), !rev_app_distr.
  cbn [rev app]. rewrite lev_cons, Hs, Ht, lev_rev.
  pose proof (lev_grow_l a (rev s) (rev t)) as H1.
  pose proof (lev_grow_r b (rev s) (rev t)) as H2.
  rewrite Hs, lev_rev in H1. rewrite Ht, lev_rev in H2.
  destruct (a =? b)%Z; lia.
Qed.

(** ** The rolling row of [getEditDistance] *)

Lemma string_eqb_eq (a b : jsstring) : string_eqb a b = true <-> a = b.
Proof.
  revert b. induction a as [|x a IH]; intros [|y b]; simpl; split;
    try congruence; try reflexivity.
  - intros H. apply andb_true_iff in H as [Hx Hab].
    apply Z.eqb_eq in Hx. apply IH in Hab. congruence.
  - intros H. injection H as -> ->. rewrite Z.eqb_refl. simpl.
    apply IH. reflexivity.
Qed.

Lemma string_eqb_unit (a b : Z) : string_eqb [a] [b] = (a =? b)%Z.
Proof. simpl. apply andb_true_r. Qed.

Lemma array_set_inside (l1 l2 : list nat) (x v j : nat) :
  j = length l1 -> array_set (l1 ++ x :: l2) j v = l1 ++ v :: l2.
Proof.
  intros ->. induction l1 as [|y l1 IH]; simpl; [reflexivity|].
  now rewrite IH.
Qed.

Lemma array_set_push (l : list nat) (v j : nat) :
  j = length l -> array_set l j v = l ++ [v].
Proof.
  intros ->. induction l as [|y l IH]; simpl; [reflexivity|].
  now rewrite IH.
Qed.

Lemma array_get_inside (l1 l2 : list nat) (x j : nat) :
  j = length l1 -> array_get (l1 ++ x :: l2) j = x.
Proof.
  intros ->. unfold array_get. rewrite app_nth2, Nat.sub_diag by lia.
  reflexivity.
Qed.

Lemma firstn_snoc (s : jsstring) (i : nat) (a : Z) :
  nth_error s i = Some a -> firstn (S i) s = firstn i s ++ [a].
Proof.
  revert i. induction s as [|x s IH]; intros [|i] H; simpl in *;
    try discriminate.
  - congruence.
  - f_equal. apply IH, H.
Qed.

Lemma charAt_inside (s : jsstring) (i : nat) :
  i < length s -> exists a, nth_error s i = Some a /\ charAt s i = [a].
Proof.
  intros H. unfold charAt.
  destruct (nth_error s i) as [a|] eqn:E.
  - exists a. split; reflexivity.
  - apply nth_error_None in E. lia.
Qed.

Section Rows.

Variables str1 str2 : jsstring.

Local Abbreviation D := (lev_prefix str1 str2).

Lemma lev_prefix_0_l (j : nat) : j <= length str2 -> D 0 j = j.
Proof.
  intros H. unfold lev_prefix. simpl. rewrite length_firstn. lia.
Qed.

Lemma lev_prefix_0_r (i : nat) : i <= length str1 -> D i 0 = i.
Proof.
  intros H. unfold lev_prefix. simpl. rewrite lev_nil_r, length_firstn.
  lia.
Qed.

(** The value the inner loop computes for cell [(i+1, j+1)]. *)
Lemma lev_prefix_step (i j : nat) :
  i < length str1 -> j < length str2 ->
  D (S i) (S j) =
  if negb (string_eqb (charAt str1 i) (charAt str2 j))
  then Nat.min (Nat.min (D i j) (D (S i) j)) (D i (S j)) + 1
  else D i j.
Proof.
  intros Hi Hj.
  destruct (charAt_inside str1 i Hi) as (a & Ea & ->).
  destruct (charAt_inside str2 j Hj) as (b & Eb & ->).
  unfold lev_prefix.
  rewrite (firstn_snoc str1 i a Ea), (firstn_snoc str2 j b Eb).
  rewrite lev_snoc, string_eqb_unit.
  destruct (a =? b)%Z; reflexivity.
Qed.

(** Row 0 fills [costs] with 0, 1, 2, ... *)
Lemma edit_inner_row0 (k lastValue : nat) :
  fold_left (edit_inner str1 str2 0) (seq 0 k) ([], lastValue)
  = (seq 0 k, lastValue).
Proof.
  induction k as [|k IH]; [reflexivity|].
  rewrite seq_S, fold_left_app, IH. simpl.
  rewrite array_set_push by (now rewrite length_seq). reflexivity.
Qed.

(** One cell of a later row: [costs[j-1]] and [costs[j]] are read, then
    [costs[j-1]] is overwritten with the previous [lastValue]. *)
Lemma edit_inner_cell (i k x y lastValue : nat) (l1 l2 : list nat) :
  length l1 = k ->
  edit_inner str1 str2 (S i) (l1 ++ x :: y :: l2, lastValue) (S k)
  = (l1 ++ lastValue :: y :: l2,
     if negb (string_eqb (charAt str1 i) (charAt str2 k))
     then Nat.min (Nat.min x lastValue) y + 1
     else x).
Proof.
  intros Hl. unfold edit_inner. cbn [Nat.eqb Nat.ltb Nat.leb].
  rewrite !Nat.sub_succ, !Nat.sub_0_r.
  rewrite array_set_inside, array_get_inside by (now symmetry).
  replace (l1 ++ x :: y :: l2) with ((l1 ++ [x]) ++ y :: l2)
    by (now rewrite <- app_assoc).
  rewrite array_get_inside by (rewrite length_app; simpl; lia).
  reflexivity.
Qed.

(** Inside row [i+1], after the cells 0..k: the cells before [k] already
    hold the new row, the others still hold row [i], and [lastValue] is
    the new cell [k]. *)
Lemma edit_inner_row (i k : nat) :
  i < length str1 -> k <= length str2 ->
  fold_left (edit_inner str1 str2 (S i)) (seq 0 (S k))
            (map (D i) (seq 0 (S (length str2))), S i)
  = (map (D (S i)) (seq 0 k) ++ map (D i) (seq k (S (length str2) - k)),
     D (S i) k).
Proof.
  intros Hi. induction k as [|k IH]; intros Hk.
  - cbn [seq fold_left]. unfold edit_inner. cbn [Nat.eqb Nat.ltb Nat.leb].
    rewrite Nat.sub_0_r. cbn [seq map app].
    f_equal. symmetry. apply lev_prefix_0_r. lia.
  - rewrite (seq_S (S k)), fold_left_app, IH by lia. cbn [fold_left Nat.add].
    replace (S (length str2) - k) with (S (S (length str2 - S k))) by lia.
    replace (S (length str2) - S k) with (S (length str2 - S k)) by lia.
    rewrite (seq_S k), map_app, <- app_assoc.
    cbn [seq map app].
    rewrite edit_inner_cell by (now rewrite length_map, length_seq).
    rewrite (lev_prefix_step i k) by lia.
    reflexivity.
Qed.

Lemma edit_outer_row (i : nat) :
  i < length str1 ->
  edit_outer str1 str2 (map (D i) (seq 0 (S (length str2)))) (S i)
  = map (D (S i)) (seq 0 (S (length str2))).
Proof.
  intros Hi. unfold edit_outer.
  rewrite (edit_inner_row i (length str2)) by lia.
  cbn [Nat.ltb Nat.leb].
  rewrite (seq_S (length str2) 0), map_app.
  replace (S (length str2) - length str2) with 1 by lia.
  cbn [seq map Nat.add].
  rewrite array_set_inside by (now rewrite length_map, length_seq).
  reflexivity.
Qed.

Lemma edit_outer_rows (i : nat) :
  i <= length str1 ->
  fold_left (edit_outer str1 str2) (seq 0 (S i)) []
  = map (D i) (seq 0 (S (length str2))).
Proof.
  induction i as [|i IH]; intros Hi.
  - change (fold_left (edit_outer str1 str2) (seq 0 1) [])
      with (edit_outer str1 str2 [] 0).
    unfold edit_outer.
    rewrite edit_inner_row0. cbn [Nat.ltb Nat.leb].
    rewrite <- (map_id (seq 0 (S (length str2)))) at 1.
    apply map_ext_in. intros j Hj. apply in_seq in Hj.
    symmetry. apply lev_prefix_0_l. lia.
  - rewrite seq_S, fold_left_app, IH by lia. cbn [fold_left Nat.add].
    apply edit_outer_row. lia.
Qed.

End Rows.

(** [getEditDistance] computes the recurrence. *)
Lemma getEditDistance_lev (str1 str2 : jsstring) :
  getEditDistance str1 str2 = lev str1 str2.
Proof.
  unfold getEditDistance.
  rewrite edit_outer_rows by lia.
  rewrite seq_S, map_app. cbn [map Nat.add].
  rewrite array_get_inside by (now rewrite length_map, length_seq).
  unfold lev_prefix. now rewrite !firstn_all.
Qed.

Lemma getEditDistance_is_edit_distance (str1 str2 : jsstring) :
  is_edit_distance str1 str2 (getEditDistance str1 str2).
Proof. rewrite getEditDistance_lev. apply lev_is_edit_distance. Qed.

Lemma lev_le_max (s t : jsstring) : lev s t <= Nat.max (length s) (length t).
Proof.
  revert t. induction s as [|a s IH]; intros t.
  - simpl. lia.
  - destruct t as [|b t].
    + rewrite lev_nil_r. lia.
    + rewrite lev_cons. specialize (IH t). simpl length.
      destruct (a =? b)%Z; lia.
Qed.

(** ** Numbers *)

Lemma Qgtb_lt (x y : Q) : Qgtb x y = true <-> (y < x)%Q.
Proof.
  unfold Qgtb. rewrite negb_true_iff. split.
  - intros H. apply Qnot_le_lt. intros Hle.
    apply Qle_bool_iff in Hle. congruence.
  - intros H. destruct (Qle_bool x y) eqn:E; [|reflexivity].
    apply Qle_bool_iff in E. exfalso. exact (Qlt_not_le _ _ H E).
Qed.

Lemma Qgtb_le (x y : Q) : Qgtb x y = false <-> (x <= y)%Q.
Proof.
  unfold Qgtb. rewrite negb_false_iff. apply Qle_bool_iff.
Qed.

Lemma Qdiv_nat_range (n : Z) (d : nat) :
  (0 <= n <= Z.of_nat d)%Z -> 0 < d -> (0 <= Qdiv_nat n d <= 1)%Q.
Proof.
  intros Hn Hd. unfold Qdiv_nat.
  assert (Hpos : (0 < inject_Z (Z.of_nat d))%Q).
  { change 0%Q with (inject_Z 0). rewrite <- Zlt_Qlt. lia. }
  split.
  - apply Qle_shift_div_l; [exact Hpos|].
    rewrite Qmult_0_l. change 0%Q with (inject_Z 0). rewrite <- Zle_Qle. lia.
  - apply Qle_shift_div_r; [exact Hpos|].
    rewrite Qmult_1_l, <- Zle_Qle. lia.
Qed.

Lemma Qdiv_nat_one (d : nat) : 0 < d -> (Qdiv_nat (Z.of_nat d) d == 1)%Q.
Proof.
  intros Hd. unfold Qdiv_nat, Qdiv. apply Qmult_inv_r.
  change 0%Q with (inject_Z 0). rewrite inject_Z_injective. lia.
Qed.

Lemma Math_round_range (x : Q) :
  (7 # 10 < x)%Q -> (x <= 1)%Q -> (70 <= Math_round (x * 100) <= 100)%Z.
Proof.
  intros Hlo Hhi. unfold Math_round. split.
  - change 70%Z with (Qfloor (70 # 1)). apply Qfloor_resp_le.
    apply Qle_trans with (x * 100)%Q.
    + apply Qlt_le_weak in Hlo.
      apply (Qmult_le_compat_r _ _ 100) in Hlo; [|discriminate].
      apply Qle_trans with ((7 # 10) * 100)%Q; [discriminate | exact Hlo].
    + rewrite <- (Qplus_0_r (x * 100)) at 1.
      apply Qplus_le_r. discriminate.
  - change 100%Z with (Qfloor (201 # 2)). apply Qfloor_resp_le.
    change (201 # 2)%Q with (1 * 100 + (1 # 2))%Q.
    apply Qplus_le_l. apply Qmult_le_compat_r; [exact Hhi | discriminate].
Qed.

(** ** The similarity score *)

Lemma falsy_Some (s : jsstring) : falsy (Some s) = false <-> s <> [].
Proof. destruct s; simpl; split; congruence. Qed.

Lemma calculateSimilarity_falsy (a b : option jsstring) :
  falsy a = true \/ falsy b = true -> calculateSimilarity a b = 0%Q.
Proof.
  intros H. unfold calculateSimilarity.
  destruct a as [s|]; [|reflexivity]. destruct b as [t|]; [|reflexivity].
  destruct H as [-> | ->]; [reflexivity|].
  now rewrite orb_true_r.
Qed.

Lemma calculateSimilarity_max (s t : jsstring) :
  s <> [] -> t <> [] ->
  calculateSimilarity (Some s) (Some t) =
  Qdiv_nat (Z.of_nat (Nat.max (length s) (length t)) - Z.of_nat (lev s t))
           (Nat.max (length s) (length t)).
Proof.
  intros Hs Ht. unfold calculateSimilarity.
  apply falsy_Some in Hs as Es. apply falsy_Some in Ht as Et.
  rewrite Es, Et. cbn [orb].
  assert (0 < length s) by (destruct s; simpl; [congruence | lia]).
  assert (0 < length t) by (destruct t; simpl; [congruence | lia]).
  destruct (Nat.ltb_spec (length t) (length s)) as [Hlt|Hge].
  - destruct (Nat.eqb_spec (length s) 0) as [E|_]; [lia|].
    rewrite getEditDistance_lev, Nat.max_l by lia. reflexivity.
  - destruct (Nat.eqb_spec (length t) 0) as [E|_]; [lia|].
    rewrite getEditDistance_lev, Nat.max_r by lia.
    now rewrite (lev_sym t s).
Qed.

Lemma calculateSimilarity_range (a b : option jsstring) :
  (0 <= calculateSimilarity a b <= 1)%Q.
Proof.
  destruct (falsy a) eqn:Ea; [rewrite calculateSimilarity_falsy by auto;
                              split; discriminate|].
  destruct (falsy b) eqn:Eb; [rewrite calculateSimilarity_falsy by auto;
                              split; discriminate|].
  destruct a as [s|]; [|discriminate]. destruct b as [t|]; [|discriminate].
  apply falsy_Some in Ea. apply falsy_Some in Eb.
  rewrite calculateSimilarity_max by assumption.
  pose proof (lev_le_max s t).
  apply Qdiv_nat_range; [lia|].
  destruct s; cbn [length]; [congruence | lia].
Qed.

(** ** The reconciler *)

Lemma strict_neq_true (a : jsstring) (b : option jsstring) :
  strict_neq a b = true <-> b <> Some a.
Proof.
  destruct b as [b|]; simpl; [|split; congruence].
  rewrite negb_true_iff. split.
  - intros H E. injection E as ->.
    assert (string_eqb a a = true) by now apply string_eqb_eq.
    congruence.
  - intros H. destruct (string_eqb a b) eqn:E; [|reflexivity].
    apply string_eqb_eq in E. congruence.
Qed.

Lemma strict_neq_false (a : jsstring) (b : option jsstring) :
  strict_neq a b = false <-> b = Some a.
Proof.
  destruct b as [b|]; simpl; [|split; congruence].
  rewrite negb_false_iff, string_eqb_eq. split; congruence.
Qed.

Section ReconcilerFacts.

Variable toLowerCase : jsstring -> jsstring.

Local Abbreviation sim := (token_similarity toLowerCase).

Lemma match_step_eq (o : jsstring) (m : option jsstring) (q : Q)
    (d : jsstring) :
  match_step toLowerCase o (m, q) d =
  if Qgtb (sim o d) q then (Some d, sim o d) else (m, q).
Proof. reflexivity. Qed.

(** The inner loop, started from any running best [(m0, q0)]: either
    nothing beats [q0], or the result is the first token that reaches the
    greatest similarity. *)
Lemma match_loop (o : jsstring) (db : list jsstring) :
  forall (m0 : option jsstring) (q0 : Q),
    (fold_left (match_step toLowerCase o) db (m0, q0) = (m0, q0) /\
     forall d, In d db -> (sim o d <= q0)%Q)
    \/
    (exists before d after,
       db = before ++ d :: after /\
       fold_left (match_step toLowerCase o) db (m0, q0) = (Some d, sim o d) /\
       (q0 < sim o d)%Q /\
       (forall x, In x before -> (sim o x < sim o d)%Q) /\
       (forall x, In x after -> (sim o x <= sim o d)%Q)).
Proof.
  induction db as [|x db IH]; intros m0 q0.
  - left. split; [reflexivity | intros d []].
  - cbn [fold_left]. rewrite match_step_eq.
    destruct (Qgtb (sim o x) q0) eqn:E.
    + apply Qgtb_lt in E. right.
      destruct (IH (Some x) (sim o x))
        as [[Hfold Hall] | (before & d & after & -> & Hfold & Hlt & Hb & Ha)].
      * exists [], x, db. repeat split; auto. intros y [].
      * exists (x :: before), d, after. repeat split; auto.
        -- eapply Qlt_trans; eassumption.
        -- intros y [<- | Hy]; auto.
    + apply Qgtb_le in E.
      destruct (IH m0 q0)
        as [[Hfold Hall] | (before & d & after & -> & Hfold & Hlt & Hb & Ha)].
      * left. split; [exact Hfold|]. intros d [<- | Hd]; auto.
      * right. exists (x :: before), d, after. repeat split; auto.
        intros y [<- | Hy]; auto.
        eapply Qle_lt_trans; eassumption.
Qed.

Lemma best_match_first_best (db : list jsstring) (o : jsstring) :
  first_best toLowerCase db o (fst (best_match toLowerCase db o))
             (snd (best_match toLowerCase db o)).
Proof.
  unfold best_match, first_best.
  destruct (match_loop o db None 0%Q)
    as [[-> Hall] | (before & d & after & Hdb & -> & Hlt & Hb & Ha)].
  - left. auto.
  - right. exists before, d, after. cbn [fst snd]. repeat split; auto.
Qed.

Lemma best_match_range (db : list jsstring) (o : jsstring) :
  (0 <= snd (best_match toLowerCase db o) <= 1)%Q.
Proof.
  destruct (best_match_first_best db o)
    as [(_ & -> & _) | (before & d & after & _ & _ & -> & _)].
  - split; discriminate.
  - apply calculateSimilarity_range.
Qed.

(** A best similarity above 0 always comes with a token of the DB list. *)
Lemma best_match_positive (db : list jsstring) (o : jsstring) :
  (0 < snd (best_match toLowerCase db o))%Q ->
  exists d, fst (best_match toLowerCase db o) = Some d /\ In d db.
Proof.
  intros Hpos.
  destruct (best_match_first_best db o)
    as [(_ & E & _) | (before & d & after & -> & E & _)].
  - rewrite E in Hpos. discriminate.
  - exists d. split; [exact E | apply in_elt].
Qed.

Lemma verify_step_eq (db : list jsstring) (v : list (option jsstring))
    (c : list Correction) (o : jsstring) :
  verify_step toLowerCase db (v, c) o =
  (v ++ [token_verified toLowerCase db o],
   c ++ token_corrections toLowerCase db o).
Proof.
  unfold verify_step, token_verified, token_corrections.
  destruct (best_match toLowerCase db o) as [m q]. cbn [fst snd].
  destruct (Qgtb q (7 # 10)); cbn [andb]; [|now rewrite app_nil_r].
  destruct (strict_neq o m); [reflexivity | now rewrite app_nil_r].
Qed.

Lemma verify_loop (db ocr : list jsstring) :
  forall (v : list (option jsstring)) (c : list Correction),
    fold_left (verify_step toLowerCase db) ocr (v, c) =
    (v ++ map (token_verified toLowerCase db) ocr,
     c ++ flat_map (token_corrections toLowerCase db) ocr).
Proof.
  induction ocr as [|o ocr IH]; intros v c; cbn [fold_left map flat_map].
  - now rewrite !app_nil_r.
  - rewrite verify_step_eq, IH, <- !app_assoc. reflexivity.
Qed.

Lemma verifyIngredients_eq (ocr : list jsstring) (raw : option jsstring) :
  verifyIngredients toLowerCase ocr raw =
  mkReconciled
    (map (token_verified toLowerCase (parseIngredients raw)) ocr)
    (flat_map (token_corrections toLowerCase (parseIngredients raw)) ocr)
               (parseIngredients raw).
Proof.
  unfold verifyIngredients. rewrite verify_loop. reflexivity.
Qed.

Lemma token_outcome_holds (db : list jsstring) (o : jsstring) :
  token_outcome toLowerCase db o (token_verified toLowerCase db o)
                (token_corrections toLowerCase db o).
Proof.
  unfold token_verified, token_corrections.
  pose proof (best_match_first_best db o) as Hbest.
  destruct (Qgtb (snd (best_match toLowerCase db o)) (7 # 10)) eqn:E;
    cbn [andb].
  - apply Qgtb_lt in E.
    destruct (best_match_positive db o) as (d & Ed & _).
    { eapply Qlt_trans; [|exact E]. reflexivity. }
    rewrite Ed in *.
    destruct (strict_neq o (Some d)) eqn:En.
    + apply strict_neq_true in En.
      eapply outcome_corrected; eauto. congruence.
    + apply strict_neq_false in En. injection En as ->.
      eapply outcome_confirmed; eauto.
  - apply Qgtb_le in E. eapply outcome_unmatched; eauto.
Qed.

End ReconcilerFacts.

(** ** The tokenizer *)

Lemma split_not_nil (s : jsstring) : split s <> [].
Proof.
  destruct s as [|c s]; simpl; [discriminate|].
  destruct (is_delimiter c); [discriminate|].
  destruct (split s); discriminate.
Qed.

Lemma interleave_cons (c : Z) (piece : jsstring) (pieces : list jsstring)
    (seps : list Z) :
  interleave ((c :: piece) :: pieces) seps
  = c :: interleave (piece :: pieces) seps.
Proof. destruct seps; reflexivity. Qed.

Lemma split_splits (s : jsstring) : splits_at_delimiters s (split s).
Proof.
  induction s as [|c s (seps & Hlen & Hseps & Hpieces & Hjoin)].
  - exists []. repeat split; repeat constructor.
  - cbn [split]. destruct (is_delimiter c) eqn:Ec.
    + exists (c :: seps). repeat split.
      * simpl. now rewrite Hlen.
      * now constructor.
      * now repeat constructor.
      * simpl. now rewrite Hjoin.
    + destruct (split s) as [|piece pieces]; [discriminate|].
      exists seps. repeat split; auto.
      * inversion Hpieces; subst. now repeat constructor.
      * rewrite interleave_cons. now rewrite Hjoin.
Qed.

Lemma trimStart_spec (s : jsstring) :
  exists front,
    s = front ++ trimStart s /\
    Forall (fun c => is_whitespace c = true) front /\
    (forall c rest, trimStart s = c :: rest -> is_whitespace c = false).
Proof.
  induction s as [|c s (front & Hs & Hfront & Hhead)].
  - exists []. repeat split; [constructor | discriminate].
  - cbn [trimStart]. destruct (is_whitespace c) eqn:Ec.
    + exists (c :: front). repeat split.
      * simpl. now rewrite <- Hs.
      * now constructor.
      * exact Hhead.
    + exists []. repeat split; [constructor|].
      intros c' rest E. injection E as <- _. exact Ec.
Qed.

Lemma trim_trimmed (piece : jsstring) : trimmed piece (trim piece).
Proof.
  unfold trim, trimEnd.
  destruct (trimStart_spec piece) as (front & Hp & Hfront & Hhead).
  destruct (trimStart_spec (rev (trimStart piece))) as (back & Hr & Hback & Hlast).
  set (core := trimStart (rev (trimStart piece))) in *.
  assert (Hq : trimStart piece = rev core ++ rev back).
  { rewrite <- rev_app_distr, <- Hr. now rewrite rev_involutive. }
  exists front, (rev back). repeat split.
  - now rewrite <- Hq.
  - exact Hfront.
  - apply Forall_rev, Hback.
  - intros c rest E. apply (Hhead c (rest ++ rev back)).
    rewrite Hq, E. reflexivity.
  - intros c rest E. apply (Hlast c (rev rest)).
    rewrite <- (rev_involutive core), E, rev_app_distr. reflexivity.
Qed.

Lemma filter_drop_empty (l : list jsstring) :
  drop_empty l (filter (fun item => 0 <? length item) l).
Proof.
  induction l as [|t l IH]; [constructor|].
  destruct t as [|c t]; cbn [filter length Nat.ltb Nat.leb].
  - now constructor.
  - constructor; [discriminate | exact IH].
Qed.

Lemma Forall2_map_r {A B} (R : A -> B -> Prop) (f : A -> B) (l : list A) :
  (forall x, R x (f x)) -> Forall2 R l (map f l).
Proof. intros H. induction l; simpl; constructor; auto. Qed.

Lemma parseIngredients_Some (s : jsstring) :
  parseIngredients (Some s)
  = filter (fun item => 0 <? length item) (map trim (split s)).
Proof.
  destruct s as [|c s]; reflexivity.
Qed.

Lemma parseIngredients_nonempty (raw : option jsstring) :
  Forall (fun token => token <> []) (parseIngredients raw).
Proof.
  destruct raw as [s|]; [|constructor].
  rewrite parseIngredients_Some. apply Forall_forall.
  intros t Ht. apply filter_In in Ht as [_ Ht].
  destruct t; [discriminate | discriminate].
Qed.

(** The specification determines the tokens. *)

Lemma splits_unique (s : jsstring) :
  forall pieces, splits_at_delimiters s pieces -> pieces = split s.
Proof.
  induction s as [|c s IH]; intros pieces (seps & Hlen & Hseps & Hpieces & Hjoin).
  - destruct pieces as [|piece pieces]; [discriminate|].
    destruct seps as [|c0 seps].
    + destruct pieces; [|discriminate]. simpl in Hjoin. now subst.
    + simpl in Hjoin. destruct piece; discriminate.
  - destruct pieces as [|piece pieces]; [discriminate|].
    inversion Hpieces as [|? ? Hpiece Hrest]; subst.
    destruct piece as [|x piece].
    + destruct seps as [|c0 seps]; [discriminate|].
      simpl in Hjoin. injection Hjoin as -> Hjoin.
      inversion Hseps as [|? ? Hc Hseps']; subst.
      cbn [split]. rewrite Hc. f_equal. apply IH.
      exists seps. repeat split; auto.
    + rewrite interleave_cons in Hjoin. injection Hjoin as -> Hjoin.
      inversion Hpiece as [|? ? Hc Hpiece']; subst.
      cbn [split]. rewrite Hc.
      rewrite <- (IH (piece :: pieces)); [reflexivity|].
      exists seps. repeat split; auto.
Qed.

Lemma trimStart_whitespace (front s : jsstring) :
  Forall (fun c => is_whitespace c = true) front ->
  trimStart (front ++ s) = trimStart s.
Proof.
  induction 1 as [|c front Hc _ IH]; [reflexivity|].
  simpl. now rewrite Hc.
Qed.

Lemma trimStart_fixed (s : jsstring) :
  (forall c rest, s = c :: rest -> is_whitespace c = false) ->
  trimStart s = s.
Proof.
  destruct s as [|c s]; [reflexivity|]. intros H.
  simpl. now rewrite (H c s eq_refl).
Qed.

Lemma trimmed_unique (piece token : jsstring) :
  trimmed piece token -> token = trim piece.
Proof.
  intros (front & back & -> & Hfront & Hback & Hhead & Hlast).
  unfold trim, trimEnd. rewrite trimStart_whitespace by exact Hfront.
  destruct token as [|c token].
  - cbn [app]. rewrite <- (app_nil_r back), trimStart_whitespace by exact Hback.
    reflexivity.
  - rewrite (trimStart_fixed ((c :: token) ++ back))
      by (intros c' rest E; injection E as <- _; eapply Hhead; reflexivity).
    rewrite rev_app_distr, trimStart_whitespace by (apply Forall_rev, Hback).
    rewrite trimStart_fixed; [now rewrite rev_involutive|].
    intros c' rest E. apply (Hlast c' (rev rest)).
    rewrite <- (rev_involutive (c :: token)), E. reflexivity.
Qed.

Lemma drop_empty_unique (l kept : list jsstring) :
  drop_empty l kept -> kept = filter (fun item => 0 <? length item) l.
Proof.
  induction 1 as [|l kept _ IH|t l kept Ht _ IH]; cbn [filter].
  - reflexivity.
  - exact IH.
  - destruct t; [congruence|]. cbn [length Nat.ltb Nat.leb]. now f_equal.
Qed.

Lemma Forall2_trimmed_unique (pieces stripped : list jsstring) :
  Forall2 trimmed pieces stripped -> stripped = map trim pieces.
Proof.
  induction 1 as [|p t pieces stripped Ht _ IH]; [reflexivity|].
  simpl. f_equal; [now apply trimmed_unique | exact IH].
Qed.

Lemma parseIngredients_tokenizes (s : jsstring) (tokens : list jsstring) :
  tokenizes s tokens <-> tokens = parseIngredients (Some s).
Proof.
  rewrite parseIngredients_Some. split.
  - intros (pieces & stripped & Hsplit & Htrim & Hdrop).
    apply splits_unique in Hsplit. apply Forall2_trimmed_unique in Htrim.
    apply drop_empty_unique in Hdrop. congruence.
  - intros ->. exists (split s), (map trim (split s)). split; [|split].
    + apply split_splits.
    + apply Forall2_map_r, trim_trimmed.
    + apply filter_drop_empty.
Qed.

(** ** The lookup and the orchestrator *)

Lemma searchFoodInDB_returns {E : Type}
    (axios_get : jsstring -> outcome E (option ResponseData))
    (productName : jsstring) :
  exists r, searchFoodInDB axios_get productName = Returns r.
Proof.
  unfold searchFoodInDB, try_catch, bind.
  destruct (axios_get productName) as [[[[[[its|]]|]]|]|e];
    cbn [body items]; eauto.
Qed.

Lemma searchFoodInDB_no_candidate {E : Type}
    (axios_get : jsstring -> outcome E (option ResponseData))
    (productName : jsstring) :
  no_candidate (axios_get productName) ->
  searchFoodInDB axios_get productName = Returns None.
Proof.
  unfold searchFoodInDB, try_catch, bind.
  intros H. inversion H; reflexivity.
Qed.

Lemma verify_food_label_not_found {E : Type}
    (toLowerCase : jsstring -> jsstring)
    (axios_get : jsstring -> outcome E (option ResponseData))
    (error_message : E -> jsstring)
    (productName : jsstring) (manufacturer : option jsstring)
    (ingredients : list jsstring) :
  searchFoodInDB axios_get productName = Returns None ->
  verify_food_label toLowerCase axios_get error_message
                    productName manufacturer ingredients
  = Returns (NotFoundResult false msg_not_found
               (mkOriginalData productName manufacturer ingredients)
               msg_suggestion).
Proof.
  intros H. unfold verify_food_label. rewrite H. reflexivity.
Qed.

(** ** The specification of the reconciler fixes the outcome *)

Lemma app_cons_compare {A} (b1 b2 a1 a2 : list A) (d1 d2 : A) :
  b1 ++ d1 :: a1 = b2 ++ d2 :: a2 ->
  (b1 = b2 /\ d1 = d2 /\ a1 = a2) \/ (In d1 b2 /\ In d2 a1) \/ (In d2 b1 /\ In d1 a2).
Proof.
  revert b2. induction b1 as [|x b1 IH]; intros [|y b2] E; simpl in E.
  - injection E as -> ->. auto.
  - injection E as -> ->. right. left. split; [now left | apply in_elt].
  - injection E as -> <-. right. right. split; [now left | apply in_elt].
  - injection E as -> E. destruct (IH b2 E) as [(-> & -> & ->) | [[H1 H2] | [H1 H2]]].
    + auto.
    + right. left. split; [now right | exact H2].
    + right. right. split; [now right | exact H2].
Qed.

Section ReconcilerUnique.

Variable toLowerCase : jsstring -> jsstring.

Lemma first_best_unique (db : list jsstring) (o : jsstring)
    (m m' : option jsstring) (q q' : Q) :
  first_best toLowerCase db o m q -> first_best toLowerCase db o m' q' ->
  m = m' /\ q = q'.
Proof.
  intros [(-> & -> & Hall) | (b & d & a & Hdb & -> & -> & Hpos & Hb & Ha)]
         [(-> & -> & Hall') | (b' & d' & a' & Hdb' & -> & -> & Hpos' & Hb' & Ha')].
  - auto.
  - exfalso. apply (Qlt_not_le _ _ Hpos'), Hall. subst db. apply in_elt.
  - exfalso. apply (Qlt_not_le _ _ Hpos), Hall'. subst db. apply in_elt.
  - rewrite Hdb in Hdb'.
    destruct (app_cons_compare _ _ _ _ _ _ Hdb')
      as [(_ & -> & _) | [[H1 H2] | [H1 H2]]].
    + auto.
    + exfalso. exact (Qlt_not_le _ _ (Hb' _ H1) (Ha _ H2)).
    + exfalso. exact (Qlt_not_le _ _ (Hb _ H1) (Ha' _ H2)).
Qed.

Lemma token_outcome_unique (db : list jsstring) (o : jsstring)
    (v v' : option jsstring) (c c' : list Correction) :
  token_outcome toLowerCase db o v c -> token_outcome toLowerCase db o v' c' ->
  v = v' /\ c = c'.
Proof.
  intros H H'.
  destruct H as [d q Hb Hq Hd | q Hb Hq | m q Hb Hq];
    destruct H' as [d' q' Hb' Hq' Hd' | q' Hb' Hq' | m' q' Hb' Hq'];
    destruct (first_best_unique _ _ _ _ _ _ Hb Hb') as [Em Eq];
    try (injection Em as Em); subst; auto;
    try congruence;
    exfalso; eapply Qlt_not_le; eassumption.
Qed.

Lemma best_match_empty_token (db : list jsstring) :
  toLowerCase [] = [] ->
  best_match toLowerCase db [] = (None, 0%Q).
Proof.
  intros Hnil. unfold best_match.
  induction db as [|d db IH]; [reflexivity|].
  cbn [fold_left]. unfold match_step at 2. rewrite Hnil.
  rewrite calculateSimilarity_falsy by (now left). exact IH.
Qed.

Lemma token_corrections_original (db : list jsstring) (o : jsstring)
    (c : Correction) :
  In c (token_corrections toLowerCase db o) ->
  original c = o /\
  (7 # 10 < snd (best_match toLowerCase db o))%Q /\
  confidence c = Math_round (snd (best_match toLowerCase db o) * 100)%Q.
Proof.
  unfold token_corrections.
  destruct (Qgtb (snd (best_match toLowerCase db o)) (7 # 10)) eqn:E;
    cbn [andb]; [|intros []].
  destruct (strict_neq o (fst (best_match toLowerCase db o))); [|intros []].
  intros [<- | []]. apply Qgtb_lt in E. auto.
Qed.

End ReconcilerUnique.

Lemma parseIngredients_absent (raw : option jsstring) :
  raw = None \/ raw = Some [] -> parseIngredients raw = [].
Proof. intros [-> | ->]; reflexivity. Qed.

(** X22.  Nothing but strings ever enters [verified]: [bestMatch] is pushed
    only once a DB token has replaced its initial [null]. *)
Lemma verified_no_null (toLowerCase : jsstring -> jsstring)
    (ocrIngredients : list jsstring) (raw : option jsstring) :
  Forall (fun v => v <> None)
         (verified (verifyIngredients toLowerCase ocrIngredients raw)).
Proof.
  rewrite verifyIngredients_eq. cbn [verified].
  apply Forall_forall. intros v Hv.
  apply in_map_iff in Hv as (o & <- & _).
  destruct (token_outcome_holds toLowerCase (parseIngredients raw) o);
    discriminate.
Qed.

(** ** The code on a few inputs *)

(** "kitten" and "sitting". *)
Example getEditDistance_kitten_sitting :
  getEditDistance [107; 105; 116; 116; 101; 110]%Z
                  [115; 105; 116; 116; 105; 110; 103]%Z = 3.
Proof. reflexivity. Qed.

(** " a, ;b c//d " gives "a", "b c", "d". *)
Example parseIngredients_mixed :
  parseIngredients (Some [32; 97; 44; 32; 59; 98; 32; 99; 47; 47; 100; 32]%Z)
  = [[97]; [98; 32; 99]; [100]]%Z.
Proof. reflexivity. Qed.

(** Scenario A: "밀가루", "설탕", "소금" against "밀가루, 설탕, 소금". *)
Example scenario_A :
  verify_food_label ascii_toLowerCase
    (store_of (product_of_raw
                 (milgaru ++ [44; 32; 49444; 53461; 44; 32; 49548; 44552]%Z)))
    (fun _ => []) milgaru None
    [milgaru; [49444; 53461]%Z; [49548; 44552]%Z]
  = Returns
      (VerifiedResult true
         (mkProductInfo (Some milgaru) None None)
         (mkIngredientViews
            [milgaru; [49444; 53461]%Z; [49548; 44552]%Z]
            [Some milgaru; Some [49444; 53461]%Z; Some [49548; 44552]%Z]
            [milgaru; [49444; 53461]%Z; [49548; 44552]%Z] true)
         [] 100%Z msg_all_correct).
Proof. reflexivity. Qed.

(** A case-only difference is a correction with confidence 100. *)
Example correction_by_case :
  verifyIngredients ascii_toLowerCase [[65; 66; 67; 68]%Z]
                    (Some [97; 98; 99; 100]%Z)
  = mkReconciled [Some [97; 98; 99; 100]%Z]
      [mkCorrection [65; 66; 67; 68]%Z (Some [97; 98; 99; 100]%Z) 100]
      [[97; 98; 99; 100]%Z].
Proof. reflexivity. Qed.

(* ================================================================== *)
(** * Part III: the claims *)
(* ================================================================== *)

(** C1.  [verifyIngredients] goes through the OCR tokens in input order.
    Each token contributes one entry of [verified] and at most one
    correction, decided by its best match among the tokens of the DB text
    (the first token of greatest similarity to the lower-cased OCR token):
    above 0.70 the DB token is appended, with a correction carrying
    [round(bestSimilarity * 100)] exactly when it differs from the OCR
    token; at 0.70 or below the OCR token itself is appended and nothing is
    corrected.  These rules leave no freedom: the outcome list is unique. *)
Theorem verifyIngredients_in_order
    (toLowerCase : jsstring -> jsstring) (ocrIngredients : list jsstring)
    (raw : option jsstring) :
  dbIngredients (verifyIngredients toLowerCase ocrIngredients raw)
  = parseIngredients raw /\
  exists outs : list (option jsstring * list Correction),
    Forall2 (fun o out => token_outcome toLowerCase (parseIngredients raw) o
                                        (fst out) (snd out))
            ocrIngredients outs /\
    verified (verifyIngredients toLowerCase ocrIngredients raw)
    = map fst outs /\
    corrections (verifyIngredients toLowerCase ocrIngredients raw)
    = concat (map snd outs) /\
    forall outs',
      Forall2 (fun o out => token_outcome toLowerCase (parseIngredients raw) o
                                          (fst out) (snd out))
              ocrIngredients outs' ->
      outs' = outs.
Proof.
  rewrite verifyIngredients_eq. cbn [verified corrections dbIngredients].
  split; [reflexivity|].
  set (db := parseIngredients raw).
  exists (map (fun o => (token_verified toLowerCase db o,
                         token_corrections toLowerCase db o))
              ocrIngredients).
  repeat split.
  - induction ocrIngredients as [|o ocr IH]; cbn [map]; constructor;
      [apply token_outcome_holds | exact IH].
  - now rewrite map_map.
  - now rewrite flat_map_concat_map, map_map.
  - intros outs' H.
    induction H as [|o [v c] ocr outs' Ho _ IH]; cbn [map]; [reflexivity|].
    cbn [fst snd] in Ho.
    destruct (token_outcome_unique _ _ _ _ _ _ _ Ho
                (token_outcome_holds toLowerCase db o)) as [-> ->].
    now rewrite IH.
Qed.

(** C3.  [verified] is as long as the OCR list, and its entry at each
    position is the OCR token of that position or the best-matching DB
    token of that OCR token. *)
Theorem verified_keeps_positions
    (toLowerCase : jsstring -> jsstring) (ocrIngredients : list jsstring)
    (raw : option jsstring) :
  length (verified (verifyIngredients toLowerCase ocrIngredients raw))
  = length ocrIngredients /\
  forall (i : nat) (o : jsstring),
    nth_error ocrIngredients i = Some o ->
    nth_error (verified (verifyIngredients toLowerCase ocrIngredients raw)) i
    = Some (Some o)
    \/
    exists (d : jsstring) (q : Q),
      first_best toLowerCase (parseIngredients raw) o (Some d) q /\
      nth_error (verified (verifyIngredients toLowerCase ocrIngredients raw)) i
      = Some (Some d).
Proof.
  rewrite verifyIngredients_eq. cbn [verified]. split.
  - apply length_map.
  - intros i o Hi.
    rewrite (map_nth_error _ _ _ Hi).
    destruct (token_outcome_holds toLowerCase (parseIngredients raw) o)
      as [d q Hb _ _ | q Hb _ | m q Hb _].
    + right. exists d, q. auto.
    + now left.
    + now left.
Qed.

Lemma verified_keeps_positions_witness :
  nth_error [milgaryu] 0 = Some milgaryu /\
  length (verified (verifyIngredients ascii_toLowerCase [milgaryu]
                      (Some milgaru))) = 1.
Proof.
  split; [reflexivity|].
  apply (verified_keeps_positions ascii_toLowerCase [milgaryu] (Some milgaru)).
Defined.

(** C4.  [calculateSimilarity] is 0 when an argument is empty or absent;
    otherwise it is [(max - d) / max] with [max] the longer length and [d]
    the Levenshtein distance of the two strings (the least number of
    single-unit insertions, deletions and substitutions).  A non-empty
    string has similarity 1 with itself, and every result lies in [0, 1]. *)
Theorem calculateSimilarity_spec (a b : option jsstring) :
  (falsy a = true \/ falsy b = true -> calculateSimilarity a b = 0%Q) /\
  (forall (s t : jsstring) (d : nat),
     a = Some s -> b = Some t -> s <> [] -> t <> [] ->
     is_edit_distance s t d ->
     calculateSimilarity a b =
     Qdiv_nat (Z.of_nat (Nat.max (length s) (length t)) - Z.of_nat d)
              (Nat.max (length s) (length t))) /\
  (forall s : jsstring,
     a = Some s -> s <> [] -> (calculateSimilarity a a == 1)%Q) /\
  (0 <= calculateSimilarity a b <= 1)%Q.
Proof.
  split; [apply calculateSimilarity_falsy|]. split; [|split].
  - intros s t d -> -> Hs Ht Hd.
    rewrite calculateSimilarity_max by assumption.
    now rewrite (is_edit_distance_unique s t d (lev s t) Hd
                   (lev_is_edit_distance s t)).
  - intros s -> Hs.
    rewrite calculateSimilarity_max by assumption.
    rewrite lev_refl, Nat.max_id, Z.sub_0_r.
    apply Qdiv_nat_one. destruct s; simpl; [congruence | lia].
  - apply calculateSimilarity_range.
Qed.

Lemma calculateSimilarity_spec_witness :
  is_edit_distance milgaryu milgaru 1 /\
  calculateSimilarity (Some milgaryu) (Some milgaru) = Qdiv_nat (3 - 1) 3.
Proof.
  assert (H : is_edit_distance milgaryu milgaru 1)
    by apply (getEditDistance_is_edit_distance milgaryu milgaru).
  split; [exact H|].
  apply (proj1 (proj2 (calculateSimilarity_spec (Some milgaryu) (Some milgaru)))
           milgaryu milgaru 1 eq_refl eq_refl);
    [discriminate | discriminate | exact H].
Defined.

(** C5.  When the DB text yields no token (a null or empty text among the
    cases), [verified] is the OCR list itself and nothing is corrected. *)
Theorem verifyIngredients_without_db
    (toLowerCase : jsstring -> jsstring) (ocrIngredients : list jsstring)
    (raw : option jsstring) :
  raw = None \/ raw = Some [] \/ parseIngredients raw = [] ->
  verified (verifyIngredients toLowerCase ocrIngredients raw)
  = map Some ocrIngredients /\
  corrections (verifyIngredients toLowerCase ocrIngredients raw) = [].
Proof.
  intros H.
  assert (Hdb : parseIngredients raw = []).
  { destruct H as [H | [H | H]]; auto using parseIngredients_absent. }
  rewrite verifyIngredients_eq, Hdb. cbn [verified corrections].
  split.
  - apply map_ext. reflexivity.
  - induction ocrIngredients as [|o ocr IH]; [reflexivity | exact IH].
Qed.

(** C9.  Every correction is made for an OCR token whose best similarity
    exceeds 0.70, and its confidence, [round(bestSimilarity * 100)], is an
    integer between 70 and 100. *)
Theorem correction_confidence_range
    (toLowerCase : jsstring -> jsstring) (ocrIngredients : list jsstring)
    (raw : option jsstring) (c : Correction) :
  In c (corrections (verifyIngredients toLowerCase ocrIngredients raw)) ->
  (exists (o : jsstring) (q : Q),
     In o ocrIngredients /\ original c = o /\
     first_best toLowerCase (parseIngredients raw) o (corrected c) q /\
     (7 # 10 < q)%Q /\ confidence c = Math_round (q * 100)%Q) /\
  (70 <= confidence c <= 100)%Z.
Proof.
  rewrite verifyIngredients_eq. cbn [corrections]. intros Hc.
  apply in_flat_map in Hc as (o & Ho & Hc).
  pose proof (token_corrections_original _ _ _ _ Hc) as (Eo & Hq & Ec).
  split.
  - exists o, (snd (best_match toLowerCase (parseIngredients raw) o)).
    repeat split; auto.
    replace (corrected c)
      with (fst (best_match toLowerCase (parseIngredients raw) o)).
    + apply best_match_first_best.
    + unfold token_corrections in Hc.
      destruct (Qgtb _ _ && strict_neq _ _); [|destruct Hc].
      destruct Hc as [<- | []]. reflexivity.
  - rewrite Ec. apply Math_round_range; [exact Hq|].
    apply best_match_range.
Qed.

(** C10.  An empty OCR token is passed through at its position and never
    corrected, whatever the DB tokens: its similarity to anything is 0. *)
Theorem empty_token_passes_through
    (toLowerCase : jsstring -> jsstring) (ocrIngredients : list jsstring)
    (raw : option jsstring) (i : nat) :
  toLowerCase [] = [] ->
  nth_error ocrIngredients i = Some [] ->
  (forall d, (token_similarity toLowerCase [] d == 0)%Q) /\
  nth_error (verified (verifyIngredients toLowerCase ocrIngredients raw)) i
  = Some (Some []) /\
  Forall (fun c => original c <> [])
         (corrections (verifyIngredients toLowerCase ocrIngredients raw)).
Proof.
  intros Hnil Hi. rewrite verifyIngredients_eq. cbn [verified corrections].
  split; [|split].
  - intros d. unfold token_similarity. rewrite Hnil.
    rewrite calculateSimilarity_falsy by (now left). reflexivity.
  - rewrite (map_nth_error _ _ _ Hi). unfold token_verified.
    now rewrite best_match_empty_token.
  - apply Forall_forall. intros c Hc E.
    apply in_flat_map in Hc as (o & _ & Hc).
    pose proof (token_corrections_original _ _ _ _ Hc) as (Eo & _).
    rewrite E in Eo. subst o.
    unfold token_corrections in Hc.
    rewrite best_match_empty_token in Hc by exact Hnil.
    exact Hc.
Qed.

(** C2, as the specification states it, fails on its own input: for the
    OCR token "밀가류" and the DB text "밀가루" the similarity does not
    exceed 0.70, [verified] is not ["밀가루"], no correction is logged and
    the overall confidence is not 85. *)
Lemma scenario_B_counterexample :
  ~ (7 # 10 < token_similarity ascii_toLowerCase milgaryu milgaru)%Q /\
  verified (verifyIngredients ascii_toLowerCase [milgaryu] (Some milgaru))
  <> [Some milgaru] /\
  (forall c : Correction,
     corrections (verifyIngredients ascii_toLowerCase [milgaryu] (Some milgaru))
     <> [c]) /\
  (forall info views cs msg,
     verify_food_label ascii_toLowerCase (store_of (product_of_raw milgaru))
                       (fun _ => []) milgaru None [milgaryu]
     <> Returns (VerifiedResult true info views cs 85 msg)).
Proof.
  split; [|split; [|split]].
  - vm_compute. discriminate.
  - vm_compute. discriminate.
  - intros c. vm_compute. discriminate.
  - intros info views cs msg. vm_compute. discriminate.
Qed.

(** C2, amended.  "밀가류" and "밀가루" are three code units long and one
    substitution apart, so their similarity is 2/3, which is not above
    0.70: the token passes through unchanged, nothing is corrected, and the
    orchestrator reports the confidence 100 with the "all correct"
    message. *)
Theorem scenario_B_actual (toLowerCase : jsstring -> jsstring) :
  toLowerCase milgaryu = milgaryu ->
  toLowerCase milgaru = milgaru ->
  (token_similarity toLowerCase milgaryu milgaru == 2 # 3)%Q /\
  verifyIngredients toLowerCase [milgaryu] (Some milgaru)
  = mkReconciled [Some milgaryu] [] [milgaru] /\
  forall (error_message : unit -> jsstring) (productName : jsstring)
         (manufacturer : option jsstring),
    verify_food_label toLowerCase (store_of (product_of_raw milgaru))
                      error_message productName manufacturer [milgaryu]
    = Returns
        (VerifiedResult true
           (mkProductInfo (Some productName) manufacturer None)
           (mkIngredientViews [milgaryu] [Some milgaryu] [milgaru] true)
           [] 100%Z msg_all_correct).
Proof.
  intros H1 H2.
  assert (Hsim : token_similarity toLowerCase milgaryu milgaru = (2 # 3)%Q).
  { unfold token_similarity. rewrite H1, H2. reflexivity. }
  assert (Hrun : verifyIngredients toLowerCase [milgaryu] (Some milgaru)
                 = mkReconciled [Some milgaryu] [] [milgaru]).
  { rewrite verifyIngredients_eq.
    change (parseIngredients (Some milgaru)) with [milgaru].
    cbn [map flat_map].
    unfold token_verified, token_corrections, best_match.
    cbn [fold_left]. rewrite match_step_eq, Hsim. reflexivity. }
  split; [rewrite Hsim; reflexivity|]. split; [exact Hrun|].
  intros error_message productName manufacturer.
  unfold verify_food_label, store_of, product_of_raw, searchFoodInDB.
  cbn [bind try_catch body items rawmtrl_nm RAWMTRL_NM js_or falsy].
  change (js_or (js_or (Some milgaru) None) (Some [])) with (Some milgaru).
  rewrite Hrun. reflexivity.
Qed.

Lemma scenario_B_actual_witness :
  (ascii_toLowerCase milgaryu = milgaryu /\ ascii_toLowerCase milgaru = milgaru)
  /\ (token_similarity ascii_toLowerCase milgaryu milgaru == 2 # 3)%Q.
Proof.
  split; [split; reflexivity|].
  apply (scenario_B_actual ascii_toLowerCase); reflexivity.
Defined.

(** C6.  When the lookup has no candidate (the request fails, or the
    answer has no data, no [body], no [items] or an empty [items]),
    [searchFoodInDB] returns [null] instead of throwing, and the tool
    returns the not-found object: [verified] false, and [originalData]
    echoing the product name, the manufacturer and the ingredients it was
    given. *)
Theorem lookup_failure_is_not_found {E : Type}
    (toLowerCase : jsstring -> jsstring)
    (axios_get : jsstring -> outcome E (option ResponseData))
    (error_message : E -> jsstring)
    (productName : jsstring) (manufacturer : option jsstring)
    (ingredients : list jsstring) :
  no_candidate (axios_get productName) ->
  searchFoodInDB axios_get productName = Returns None /\
  verify_food_label toLowerCase axios_get error_message
                    productName manufacturer ingredients
  = Returns (NotFoundResult false msg_not_found
               (mkOriginalData productName manufacturer ingredients)
               msg_suggestion).
Proof.
  intros H. apply searchFoodInDB_no_candidate in H.
  split; [exact H | now apply verify_food_label_not_found].
Qed.

Lemma lookup_failure_is_not_found_witness :
  no_candidate (store_down milgaru) /\
  verify_food_label ascii_toLowerCase store_down (fun _ => [])
                    milgaru None [milgaryu]
  = Returns (NotFoundResult false msg_not_found
               (mkOriginalData milgaru None [milgaryu]) msg_suggestion).
Proof.
  split; [constructor|].
  apply (lookup_failure_is_not_found ascii_toLowerCase store_down
           (fun _ => []) milgaru None [milgaryu]).
  constructor.
Defined.

(** C7.  When a record is found the tool returns the verified object, whose
    confidence is 100 and whose message is the fixed "all correct" text
    when the reconciler made no correction, and whose confidence is 85 and
    whose message is the correction count followed by the fixed suffix
    otherwise, whatever the number of corrections and their scores. *)
Theorem found_confidence {E : Type}
    (toLowerCase : jsstring -> jsstring)
    (axios_get : jsstring -> outcome E (option ResponseData))
    (error_message : E -> jsstring)
    (productName : jsstring) (manufacturer : option jsstring)
    (ingredients : list jsstring) (product : DbProduct) :
  searchFoodInDB axios_get productName = Returns (Some product) ->
  exists info views cs score message,
    verify_food_label toLowerCase axios_get error_message
                      productName manufacturer ingredients
    = Returns (VerifiedResult true info views cs score message) /\
    cs = corrections
           (verifyIngredients toLowerCase ingredients
              (js_or (js_or (rawmtrl_nm product) (RAWMTRL_NM product))
                     (Some []))) /\
    (cs = [] -> score = 100%Z /\ message = msg_all_correct) /\
    (cs <> [] ->
     score = 85%Z /\
     message = number_to_string (length cs) ++ msg_corrected_suffix).
Proof.
  intros H. unfold verify_food_label. rewrite H. cbn [bind try_catch].
  do 5 eexists. split; [reflexivity|]. split; [reflexivity|].
  destruct (corrections _) as [|c cs]; split; intros Hcs;
    try congruence; split; reflexivity.
Qed.

Lemma found_confidence_witness :
  searchFoodInDB (store_of (product_of_raw milgaru)) milgaru
  = Returns (Some (product_of_raw milgaru)) /\
  exists info views cs score message,
    verify_food_label ascii_toLowerCase (store_of (product_of_raw milgaru))
                      (fun _ => []) milgaru None [milgaryu]
    = Returns (VerifiedResult true info views cs score message).
Proof.
  split; [reflexivity|].
  destruct (found_confidence ascii_toLowerCase
              (store_of (product_of_raw milgaru)) (fun _ => [])
              milgaru None [milgaryu] (product_of_raw milgaru) eq_refl)
    as (info & views & cs & score & message & H & _).
  exists info, views, cs, score, message. exact H.
Defined.

(** C8.  [parseIngredients] returns nothing for an absent or empty text.
    Otherwise its result is exactly the list obtained by cutting the text
    at every comma, semicolon and slash, stripping the white space around
    each piece and dropping the pieces left empty, in order of appearance;
    no token of the result is empty. *)
Theorem parseIngredients_spec :
  parseIngredients None = [] /\
  parseIngredients (Some []) = [] /\
  forall s : jsstring,
    (forall tokens, tokenizes s tokens <-> tokens = parseIngredients (Some s)) /\
    Forall (fun token => token <> []) (parseIngredients (Some s)).
Proof.
  split; [reflexivity|]. split; [reflexivity|].
  intros s. split.
  - intros tokens. apply parseIngredients_tokenizes.
  - apply parseIngredients_nonempty.
Qed.

Lemma verifyIngredients_without_db_witness :
  (@None jsstring = None \/ @None jsstring = Some [] \/ parseIngredients None = []) /\
  verified (verifyIngredients ascii_toLowerCase [milgaryu] None)
  = [Some milgaryu].
Proof.
  split; [now left|].
  apply (verifyIngredients_without_db ascii_toLowerCase [milgaryu] None).
  now left.
Defined.

Lemma correction_confidence_range_witness :
  In (mkCorrection [65; 66; 67; 68]%Z (Some [97; 98; 99; 100]%Z) 100)
     (corrections (verifyIngredients ascii_toLowerCase [[65; 66; 67; 68]%Z]
                     (Some [97; 98; 99; 100]%Z))) /\
  (70 <= 100 <= 100)%Z.
Proof.
  split; [left; reflexivity|].
  apply (correction_confidence_range ascii_toLowerCase [[65; 66; 67; 68]%Z]
           (Some [97; 98; 99; 100]%Z)
           (mkCorrection [65; 66; 67; 68]%Z (Some [97; 98; 99; 100]%Z) 100)).
  left; reflexivity.
Defined.

Lemma empty_token_passes_through_witness :
  (ascii_toLowerCase [] = [] /\ nth_error [[]; milgaru] 0 = Some []) /\
  nth_error (verified (verifyIngredients ascii_toLowerCase [[]; milgaru]
                         (Some milgaru))) 0
  = Some (Some []).
Proof.
  split; [split; reflexivity|].
  apply (empty_token_passes_through ascii_toLowerCase [[]; milgaru]
           (Some milgaru) 0); reflexivity.
Defined.

(* ================================================================== *)
(** * Part IV: further properties of the code *)
(* ================================================================== *)

(** ** Edit scripts, continued *)

Lemma edits_trans (n m : nat) (s u t : jsstring) :
  edits n s u -> edits m u t -> edits (n + m) s t.
Proof.
  induction 1 as [s|n s s' u Hstep _ IH]; intros H; [exact H|].
  simpl. econstructor; [exact Hstep | apply IH, H].
Qed.

Lemma edits_zero (s t : jsstring) : edits 0 s t -> s = t.
Proof. inversion 1. reflexivity. Qed.

Lemma edit1_length (s t : jsstring) :
  edit1 s t -> length s <= S (length t) /\ length t <= S (length s).
Proof. induction 1; simpl; lia. Qed.

Lemma edits_length (n : nat) (s t : jsstring) :
  edits n s t -> length s <= length t + n /\ length t <= length s + n.
Proof.
  induction 1 as [s|n s s' t Hstep _ IH]; [lia|].
  apply edit1_length in Hstep. lia.
Qed.

Lemma lev_zero (s t : jsstring) : lev s t = 0 <-> s = t.
Proof.
  split.
  - intros H. apply edits_zero. rewrite <- H. apply lev_reached.
  - intros ->. apply lev_refl.
Qed.

Lemma lev_triangle (s u t : jsstring) : lev s t <= lev s u + lev u t.
Proof.
  apply lev_lower_bound. eapply edits_trans; apply lev_reached.
Qed.

Lemma lev_cons_same (a : Z) (s t : jsstring) : lev (a :: s) (a :: t) = lev s t.
Proof.
  rewrite lev_cons, Z.eqb_refl.
  pose proof (lev_grow_l a s t). pose proof (lev_grow_r a s t).
  pose proof (lev_drop_l a s (a :: t)). pose proof (lev_drop_r a (a :: s) t).
  lia.
Qed.

Lemma lev_app_same_l (p s t : jsstring) : lev (p ++ s) (p ++ t) = lev s t.
Proof.
  induction p as [|a p IH]; [reflexivity|].
  simpl app. now rewrite lev_cons_same.
Qed.

Lemma lev_app_same_r (p s t : jsstring) : lev (s ++ p) (t ++ p) = lev s t.
Proof.
  rewrite <- (lev_rev (s ++ p) (t ++ p)), !rev_app_distr, lev_app_same_l.
  apply lev_rev.
Qed.

(** X1.  The distance does not depend on the order of the two strings. *)
Theorem getEditDistance_sym (str1 str2 : jsstring) :
  getEditDistance str1 str2 = getEditDistance str2 str1.
Proof. rewrite !getEditDistance_lev. apply lev_sym. Qed.

(** X2.  The distance is 0 exactly for equal strings. *)
Theorem getEditDistance_zero_iff (str1 str2 : jsstring) :
  getEditDistance str1 str2 = 0 <-> str1 = str2.
Proof. rewrite getEditDistance_lev. apply lev_zero. Qed.

(** X3.  The distance obeys the triangle inequality. *)
Theorem getEditDistance_triangle (a b c : jsstring) :
  getEditDistance a c <= getEditDistance a b + getEditDistance b c.
Proof. rewrite !getEditDistance_lev. apply lev_triangle. Qed.

(** X4.  The distance is at least the difference of the two lengths and at
    most the longer length; against the empty string it is the length. *)
Theorem getEditDistance_bounds (str1 str2 : jsstring) :
  length str1 - length str2 <= getEditDistance str1 str2 /\
  length str2 - length str1 <= getEditDistance str1 str2 /\
  getEditDistance str1 str2 <= Nat.max (length str1) (length str2) /\
  getEditDistance str1 [] = length str1 /\
  getEditDistance [] str2 = length str2.
Proof.
  rewrite !getEditDistance_lev.
  pose proof (edits_length _ _ _ (lev_reached str1 str2)) as [H1 H2].
  pose proof (lev_le_max str1 str2).
  rewrite lev_nil_r. simpl. repeat split; lia.
Qed.

(** X5.  A common prefix and a common suffix do not count. *)
Theorem getEditDistance_common_affixes (p q s t : jsstring) :
  getEditDistance (p ++ s ++ q) (p ++ t ++ q) = getEditDistance s t.
Proof.
  rewrite !getEditDistance_lev. now rewrite lev_app_same_l, lev_app_same_r.
Qed.

(** ** The similarity score, continued *)

Lemma of_nat_pos (d : nat) : 0 < d -> exists p, Z.of_nat d = Z.pos p.
Proof. destruct d; [lia|]. simpl. eauto. Qed.

Lemma Qdiv_nat_gt_7_10 (n : Z) (d : nat) :
  0 < d -> ((7 # 10 < Qdiv_nat n d)%Q <-> (7 * Z.of_nat d < 10 * n)%Z).
Proof.
  intros Hd. destruct (of_nat_pos d Hd) as [p E].
  unfold Qdiv_nat, Qdiv, Qlt, Qmult, Qinv, inject_Z. rewrite E.
  cbn [Qnum Qden]. lia.
Qed.

Lemma Qdiv_nat_eq_1 (n : Z) (d : nat) :
  0 < d -> ((Qdiv_nat n d == 1)%Q <-> n = Z.of_nat d).
Proof.
  intros Hd. destruct (of_nat_pos d Hd) as [p E].
  unfold Qdiv_nat, Qdiv, Qeq, Qmult, Qinv, inject_Z. rewrite E.
  cbn [Qnum Qden]. lia.
Qed.

Lemma length_pos (s : jsstring) : s <> [] -> 0 < length s.
Proof. destruct s; simpl; [congruence | lia]. Qed.

Lemma calculateSimilarity_one (s t : jsstring) :
  s <> [] -> t <> [] ->
  ((calculateSimilarity (Some s) (Some t) == 1)%Q <-> s = t).
Proof.
  intros Hs Ht. rewrite calculateSimilarity_max by assumption.
  pose proof (length_pos s Hs).
  rewrite Qdiv_nat_eq_1 by lia. rewrite <- lev_zero. lia.
Qed.

Lemma calculateSimilarity_threshold (s t : jsstring) :
  (7 # 10 < calculateSimilarity (Some s) (Some t))%Q ->
  s <> [] /\ t <> [] /\
  10 * lev s t < 3 * Nat.max (length s) (length t).
Proof.
  intros H.
  destruct (falsy (Some s)) eqn:Es.
  { rewrite calculateSimilarity_falsy in H by auto. discriminate. }
  destruct (falsy (Some t)) eqn:Et.
  { rewrite calculateSimilarity_falsy in H by auto. discriminate. }
  apply falsy_Some in Es. apply falsy_Some in Et.
  rewrite calculateSimilarity_max in H by assumption.
  pose proof (length_pos s Es).
  apply Qdiv_nat_gt_7_10 in H; [|lia].
  repeat split; auto. lia.
Qed.

(** X6.  The similarity does not depend on the order of its arguments. *)
Theorem calculateSimilarity_sym (str1 str2 : option jsstring) :
  calculateSimilarity str1 str2 = calculateSimilarity str2 str1.
Proof.
  destruct (falsy str1) eqn:E1.
  { now rewrite !calculateSimilarity_falsy by auto. }
  destruct (falsy str2) eqn:E2.
  { now rewrite !calculateSimilarity_falsy by auto. }
  destruct str1 as [s|]; [|discriminate]. destruct str2 as [t|]; [|discriminate].
  apply falsy_Some in E1. apply falsy_Some in E2.
  rewrite !calculateSimilarity_max by assumption.
  now rewrite (lev_sym t s), (Nat.max_comm (length t)).
Qed.

(** X7.  The similarity is 1 exactly when both arguments are the same
    non-empty string. *)
Theorem calculateSimilarity_one_iff (str1 str2 : option jsstring) :
  (calculateSimilarity str1 str2 == 1)%Q <->
  exists s, s <> [] /\ str1 = Some s /\ str2 = Some s.
Proof.
  split.
  - intros H.
    destruct (falsy str1) eqn:E1.
    { rewrite calculateSimilarity_falsy in H by auto. discriminate. }
    destruct (falsy str2) eqn:E2.
    { rewrite calculateSimilarity_falsy in H by auto. discriminate. }
    destruct str1 as [s|]; [|discriminate].
    destruct str2 as [t|]; [|discriminate].
    apply falsy_Some in E1. apply falsy_Some in E2.
    apply calculateSimilarity_one in H; auto. subst t. eauto.
  - intros (s & Hs & -> & ->). now apply calculateSimilarity_one.
Qed.

(** X8.  A similarity above 0.70 means that the distance is below three
    tenths of the longer length.  Two strings of at most three code units
    therefore pass the threshold only when they are equal. *)
Theorem calculateSimilarity_above_threshold (s t : jsstring) :
  (7 # 10 < calculateSimilarity (Some s) (Some t))%Q ->
  10 * getEditDistance s t < 3 * Nat.max (length s) (length t) /\
  (length s <= 3 -> length t <= 3 -> s = t).
Proof.
  intros H. apply calculateSimilarity_threshold in H as (_ & _ & H).
  rewrite getEditDistance_lev. split; [exact H|].
  intros Hs Ht. apply lev_zero. lia.
Qed.

Lemma calculateSimilarity_above_threshold_witness :
  (7 # 10 < calculateSimilarity (Some milgaru) (Some milgaru))%Q /\
  10 * getEditDistance milgaru milgaru < 3 * Nat.max 3 3.
Proof.
  split; [reflexivity|].
  apply (calculateSimilarity_above_threshold milgaru milgaru). reflexivity.
Defined.

(** ** The tokenizer, continued *)

Lemma split_app (s t : jsstring) (c : Z) :
  is_delimiter c = true -> split (s ++ c :: t) = split s ++ split t.
Proof.
  intros Hc. induction s as [|x s IH]; cbn [app split].
  - now rewrite Hc.
  - rewrite IH. destruct (is_delimiter x); [reflexivity|].
    pose proof (split_not_nil s).
    destruct (split s) as [|piece pieces]; [congruence | reflexivity].
Qed.

Lemma split_length (s : jsstring) :
  length (split s) = S (length (filter is_delimiter s)).
Proof.
  induction s as [|x s IH]; [reflexivity|].
  cbn [split filter]. destruct (is_delimiter x).
  - simpl. now rewrite IH.
  - pose proof (split_not_nil s).
    destruct (split s) as [|piece pieces]; [congruence|]. exact IH.
Qed.

Lemma filter_length_bound {A} (f : A -> bool) (l : list A) :
  length (filter f l) <= length l.
Proof. induction l as [|x l IH]; simpl; [lia|]. destruct (f x); simpl; lia. Qed.

Lemma split_pieces_clean (s piece : jsstring) :
  In piece (split s) -> Forall (fun c => is_delimiter c = false) piece.
Proof.
  destruct (split_splits s) as (_ & _ & _ & H & _).
  rewrite Forall_forall in H. apply H.
Qed.

Lemma trim_Forall (P : Z -> Prop) (piece : jsstring) :
  Forall P piece -> Forall P (trim piece).
Proof.
  destruct (trim_trimmed piece) as (front & back & E & _).
  intros H. rewrite E in H.
  apply Forall_app in H as [_ H]. now apply Forall_app in H as [H _].
Qed.

Lemma parseIngredients_clean (raw : option jsstring) (token : jsstring) :
  In token (parseIngredients raw) ->
  token <> [] /\
  Forall (fun c => is_delimiter c = false) token /\
  (forall c rest, token = c :: rest -> is_whitespace c = false) /\
  (forall c rest, token = rest ++ [c] -> is_whitespace c = false).
Proof.
  destruct raw as [s|]; [|intros []].
  rewrite parseIngredients_Some. intros H.
  apply filter_In in H as [H Hne].
  apply in_map_iff in H as (piece & <- & Hpiece).
  destruct (trim_trimmed piece) as (front & back & _ & _ & _ & Hhead & Hlast).
  repeat split; auto.
  - intros E. rewrite E in Hne. discriminate.
  - apply trim_Forall, (split_pieces_clean s), Hpiece.
Qed.

Lemma Forall2_diag {A} (R : A -> A -> Prop) (l : list A) :
  Forall (fun x => R x x) l -> Forall2 R l l.
Proof. induction 1; constructor; auto. Qed.

Lemma drop_empty_nothing (l : list jsstring) :
  Forall (fun t => t <> []) l -> drop_empty l l.
Proof. induction 1; constructor; auto. Qed.

Lemma interleave_piece (pieces : list jsstring) :
  forall (seps : list Z) (piece : jsstring),
    length pieces = S (length seps) -> In piece pieces ->
    exists pre post, interleave pieces seps = pre ++ piece ++ post.
Proof.
  induction pieces as [|p pieces IH]; intros seps piece Hlen Hin;
    [destruct Hin|].
  destruct seps as [|c seps]; cbn [interleave].
  - destruct pieces; [|discriminate]. destruct Hin as [<- | []].
    exists [], []. now rewrite app_nil_r.
  - destruct Hin as [<- | Hin].
    + exists [], (c :: interleave pieces seps). reflexivity.
    + destruct (IH seps piece) as (pre & post & E); [simpl in *; lia | exact Hin |].
      exists (p ++ c :: pre), post. rewrite E, <- app_assoc. reflexivity.
Qed.

(** X9.  A token occurs verbatim in the text, never holds a delimiter,
    never starts or ends with white space, and is never empty. *)
Theorem parseIngredients_tokens_clean (raw : option jsstring)
    (token : jsstring) :
  In token (parseIngredients raw) ->
  (exists s pre post, raw = Some s /\ s = pre ++ token ++ post) /\
  token <> [] /\
  Forall (fun c => is_delimiter c = false) token /\
  (forall c rest, token = c :: rest -> is_whitespace c = false) /\
  (forall c rest, token = rest ++ [c] -> is_whitespace c = false).
Proof.
  intros Hin. split; [|exact (parseIngredients_clean raw token Hin)].
  destruct raw as [s|]; [|destruct Hin].
  rewrite parseIngredients_Some in Hin.
  apply filter_In in Hin as [Hin _].
  apply in_map_iff in Hin as (piece & <- & Hpiece).
  destruct (split_splits s) as (seps & Hlen & _ & _ & Hjoin).
  destruct (interleave_piece (split s) seps piece Hlen Hpiece)
    as (pre & post & E).
  destruct (trim_trimmed piece) as (front & back & Ep & _).
  exists s, (pre ++ front), (back ++ post). split; [reflexivity|].
  rewrite <- Hjoin, E, Ep at 1. now rewrite <- !app_assoc.
Qed.

Lemma parseIngredients_tokens_clean_witness :
  In [98; 32; 99]%Z
     (parseIngredients (Some [32; 97; 44; 32; 59; 98; 32; 99; 47]%Z)) /\
  [98; 32; 99]%Z <> [].
Proof.
  split; [right; left; reflexivity|].
  apply (parseIngredients_tokens_clean
           (Some [32; 97; 44; 32; 59; 98; 32; 99; 47]%Z) [98; 32; 99]%Z).
  right; left; reflexivity.
Defined.

(** X10.  Tokenizing distributes over a delimiter: the tokens of
    [s ++ c :: t], with [c] a comma, semicolon or slash, are the tokens of
    [s] followed by the tokens of [t]. *)
Theorem parseIngredients_app (s t : jsstring) (c : Z) :
  is_delimiter c = true ->
  parseIngredients (Some (s ++ c :: t))
  = parseIngredients (Some s) ++ parseIngredients (Some t).
Proof.
  intros Hc. rewrite !parseIngredients_Some, split_app by exact Hc.
  now rewrite map_app, filter_app.
Qed.

Lemma parseIngredients_app_witness :
  is_delimiter 59 = true /\
  parseIngredients (Some ([97; 44; 98] ++ 59 :: [32; 99]))%Z
  = parseIngredients (Some [97; 44; 98]%Z) ++ parseIngredients (Some [32; 99]%Z).
Proof.
  split; [reflexivity|].
  apply (parseIngredients_app [97; 44; 98]%Z [32; 99]%Z 59). reflexivity.
Defined.

(** X11.  Tokenizing is stable: the tokens of a text, joined again by any
    delimiters, tokenize to the same tokens. *)
Theorem parseIngredients_rejoin (raw : option jsstring) (seps : list Z) :
  Forall (fun c => is_delimiter c = true) seps ->
  length seps = length (parseIngredients raw) - 1 ->
  parseIngredients (Some (interleave (parseIngredients raw) seps))
  = parseIngredients raw.
Proof.
  intros Hseps Hlen.
  pose proof (parseIngredients_clean raw) as Hclean.
  destruct (parseIngredients raw) as [|token tokens] eqn:E; [reflexivity|].
  symmetry. apply parseIngredients_tokenizes.
  exists (token :: tokens), (token :: tokens). split; [|split].
  - exists seps. repeat split; auto.
    + simpl in *. lia.
    + apply Forall_forall. intros x Hx. now apply Hclean.
  - apply Forall2_diag, Forall_forall. intros x Hx.
    destruct (Hclean x Hx) as (_ & _ & Hhead & Hlast).
    exists [], []. rewrite app_nil_r. repeat split; auto.
  - apply drop_empty_nothing, Forall_forall. intros x Hx. now apply Hclean.
Qed.

Lemma parseIngredients_rejoin_witness :
  (Forall (fun c => is_delimiter c = true) [47]%Z /\
   length [47]%Z = length (parseIngredients (Some [32; 97; 44; 32; 59; 98]%Z)) - 1) /\
  parseIngredients
    (Some (interleave (parseIngredients (Some [32; 97; 44; 32; 59; 98]%Z)) [47]%Z))
  = parseIngredients (Some [32; 97; 44; 32; 59; 98]%Z).
Proof.
  split; [split; [repeat constructor | reflexivity]|].
  apply (parseIngredients_rejoin (Some [32; 97; 44; 32; 59; 98]%Z) [47]%Z);
    [repeat constructor | reflexivity].
Defined.

(** X12.  There is at most one token more than there are delimiters in the
    text. *)
Theorem parseIngredients_count (s : jsstring) :
  length (parseIngredients (Some s)) <= S (length (filter is_delimiter s)).
Proof.
  rewrite parseIngredients_Some, <- split_length, <- (length_map trim (split s)).
  apply filter_length_bound.
Qed.

(** ** The reconciler, continued *)

Lemma strict_neq_same (o : jsstring) : strict_neq o (Some o) = false.
Proof. now apply strict_neq_false. Qed.

Lemma Math_round_one (q : Q) : (q == 1)%Q -> Math_round (q * 100) = 100%Z.
Proof. intros H. unfold Math_round. rewrite H. reflexivity. Qed.

Section ReconcilerMore.

Variable toLowerCase : jsstring -> jsstring.

Local Abbreviation sim := (token_similarity toLowerCase).

Lemma token_similarity_lower (o d d' : jsstring) :
  toLowerCase d = toLowerCase d' -> sim o d = sim o d'.
Proof. unfold token_similarity. now intros ->. Qed.

Lemma token_changed (db : list jsstring) (o : jsstring) :
  token_corrections toLowerCase db o =
  if strict_neq o (token_verified toLowerCase db o)
  then [mkCorrection o (fst (best_match toLowerCase db o))
          (Math_round (snd (best_match toLowerCase db o) * 100)%Q)]
  else [].
Proof.
  unfold token_corrections, token_verified.
  destruct (Qgtb _ _); cbn [andb]; [reflexivity|].
  now rewrite strict_neq_same.
Qed.

Lemma corrections_nil_iff (db ocr : list jsstring) :
  flat_map (token_corrections toLowerCase db) ocr = [] <->
  map (token_verified toLowerCase db) ocr = map Some ocr.
Proof.
  induction ocr as [|o ocr IH]; cbn [flat_map map]; [tauto|].
  rewrite token_changed.
  destruct (strict_neq o (token_verified toLowerCase db o)) eqn:E.
  - apply strict_neq_true in E. split; [discriminate|].
    intros H. injection H as H _. contradiction.
  - apply strict_neq_false in E. cbn [app]. rewrite IH, E.
    split; [now intros -> | now intros H; injection H].
Qed.

(** The first DB token that is the OCR token up to case is its best match,
    with similarity 1. *)
Lemma best_match_exact (db before after : list jsstring) (o d : jsstring) :
  db = before ++ d :: after ->
  toLowerCase d = toLowerCase o -> toLowerCase o <> [] ->
  (forall x, In x before -> toLowerCase x <> toLowerCase o) ->
  fst (best_match toLowerCase db o) = Some d /\
  (snd (best_match toLowerCase db o) == 1)%Q.
Proof.
  intros Hdb Hd Ho Hfirst.
  assert (Hone : (sim o d == 1)%Q).
  { unfold token_similarity. rewrite Hd. now apply calculateSimilarity_one. }
  pose proof (best_match_range toLowerCase db o) as [_ Hle].
  destruct (best_match_first_best toLowerCase db o)
    as [(_ & _ & Hall) | (b' & d' & a' & Hdb' & Em & Eq & Hpos & Hb & Ha)].
  - exfalso. assert (Hin : In d db) by (subst db; apply in_elt).
    apply Hall in Hin. rewrite Hone in Hin.
    revert Hin. apply Qlt_not_le. reflexivity.
  - rewrite Eq in Hle. rewrite Em, Eq. rewrite Hdb in Hdb'.
    destruct (app_cons_compare _ _ _ _ _ _ Hdb')
      as [(_ & <- & _) | [[H1 H2] | [H1 H2]]].
    + auto.
    + exfalso. apply Hb in H1. rewrite Hone, Eq in H1.
      exact (Qlt_not_le _ _ H1 Hle).
    + exfalso. apply Ha in H2. rewrite Hone, Eq in H2.
      assert (H7 : (7 # 10 < sim o d')%Q)
        by (eapply Qlt_le_trans; [|exact H2]; reflexivity).
      apply calculateSimilarity_threshold in H7 as (Hno & Hnd & _).
      assert (E1 : (sim o d' == 1)%Q) by (apply Qle_antisym; assumption).
      apply calculateSimilarity_one in E1; auto.
      apply (Hfirst d' H1). now symmetry.
Qed.

Lemma token_exact (db before after : list jsstring) (o d : jsstring) :
  db = before ++ d :: after ->
  toLowerCase d = toLowerCase o -> toLowerCase o <> [] ->
  (forall x, In x before -> toLowerCase x <> toLowerCase o) ->
  token_verified toLowerCase db o = Some d /\
  token_corrections toLowerCase db o =
  if strict_neq o (Some d) then [mkCorrection o (Some d) 100] else [].
Proof.
  intros Hdb Hd Ho Hfirst.
  destruct (best_match_exact db before after o d Hdb Hd Ho Hfirst) as [Em Eq].
  assert (Hv : token_verified toLowerCase db o = Some d).
  { unfold token_verified.
    replace (Qgtb (snd (best_match toLowerCase db o)) (7 # 10)) with true.
    - exact Em.
    - symmetry. apply Qgtb_lt. rewrite Eq. reflexivity. }
  split; [exact Hv|].
  rewrite token_changed, Hv, Em, (Math_round_one _ Eq). reflexivity.
Qed.

(** Reconciling an entry of [verified] again leaves it alone. *)
Lemma token_fixed (db : list jsstring) (o v : jsstring) :
  (forall s, s <> [] -> toLowerCase s <> []) ->
  Forall (fun d => d <> []) db ->
  token_verified toLowerCase db o = Some v ->
  token_verified toLowerCase db v = Some v /\
  token_corrections toLowerCase db v = [].
Proof.
  intros Hlower Hdb Hv.
  destruct (strict_neq o (Some v)) eqn:Eov.
  - apply strict_neq_true in Eov.
    pose proof (token_outcome_holds toLowerCase db o) as Hout.
    rewrite Hv in Hout.
    inversion Hout as [d q Hb Hq Hne Ed Ec | q Hb Hq Ed Ec | m q Hb Hq Ed Ec];
      subst; try congruence.
    destruct Hb as [(E & _) | (b & d' & a & Hsplit & E & Eq & _ & Hbefore & _)];
      [discriminate|]. injection E as <-.
    assert (Hin : In v db) by (rewrite Hsplit; apply in_elt).
    rewrite Forall_forall in Hdb.
    destruct (token_exact db b a v v Hsplit eq_refl
                          (Hlower v (Hdb v Hin))) as [H1 H2].
    + intros x Hx E. apply Hbefore in Hx.
      rewrite (token_similarity_lower o x v E), Eq in Hx.
      exact (Qlt_irrefl _ Hx).
    + split; [exact H1|]. now rewrite H2, strict_neq_same.
  - apply strict_neq_false in Eov. injection Eov as <-.
    split; [exact Hv|]. now rewrite token_changed, Hv, strict_neq_same.
Qed.

Lemma token_verified_some (db : list jsstring) (o : jsstring) :
  exists v, token_verified toLowerCase db o = Some v.
Proof.
  destruct (token_outcome_holds toLowerCase db o); eauto.
Qed.

End ReconcilerMore.

Lemma ascii_toLowerCase_nonempty (s : jsstring) :
  s <> [] -> ascii_toLowerCase s <> [].
Proof. destruct s; simpl; congruence. Qed.

(** X13.  Each OCR token is reconciled on its own: the result for a
    concatenation of two OCR lists is the concatenation of the results. *)
Theorem verifyIngredients_app (toLowerCase : jsstring -> jsstring)
    (ocr1 ocr2 : list jsstring) (raw : option jsstring) :
  verified (verifyIngredients toLowerCase (ocr1 ++ ocr2) raw)
  = verified (verifyIngredients toLowerCase ocr1 raw)
    ++ verified (verifyIngredients toLowerCase ocr2 raw) /\
  corrections (verifyIngredients toLowerCase (ocr1 ++ ocr2) raw)
  = corrections (verifyIngredients toLowerCase ocr1 raw)
    ++ corrections (verifyIngredients toLowerCase ocr2 raw).
Proof.
  rewrite !verifyIngredients_eq. cbn [verified corrections].
  now rewrite map_app, flat_map_app.
Qed.

(** X14.  There are exactly as many corrections as positions where
    [verified] differs from the OCR list, so never more than OCR tokens. *)
Theorem corrections_count (toLowerCase : jsstring -> jsstring)
    (ocrIngredients : list jsstring) (raw : option jsstring) :
  length (corrections (verifyIngredients toLowerCase ocrIngredients raw))
  = length (filter (fun p => strict_neq (fst p) (snd p))
              (combine ocrIngredients
                 (verified (verifyIngredients toLowerCase ocrIngredients raw))))
  /\
  length (corrections (verifyIngredients toLowerCase ocrIngredients raw))
  <= length ocrIngredients.
Proof.
  rewrite verifyIngredients_eq. cbn [verified corrections].
  set (db := parseIngredients raw).
  assert (H : length (flat_map (token_corrections toLowerCase db) ocrIngredients)
              = length (filter (fun p => strict_neq (fst p) (snd p))
                          (combine ocrIngredients
                             (map (token_verified toLowerCase db) ocrIngredients)))).
  { induction ocrIngredients as [|o ocr IH]; [reflexivity|].
    cbn [flat_map map combine filter fst snd].
    rewrite length_app, IH, token_changed.
    destruct (strict_neq o (token_verified toLowerCase db o)); reflexivity. }
  split; [exact H|].
  rewrite H. etransitivity; [apply filter_length_bound|].
  rewrite length_combine, length_map. lia.
Qed.

(** X15.  A correction always replaces an OCR token of the input by a
    different token taken from the DB text. *)
Theorem correction_is_db_token (toLowerCase : jsstring -> jsstring)
    (ocrIngredients : list jsstring) (raw : option jsstring) (c : Correction) :
  In c (corrections (verifyIngredients toLowerCase ocrIngredients raw)) ->
  In (original c) ocrIngredients /\
  exists d,
    corrected c = Some d /\
    In d (dbIngredients (verifyIngredients toLowerCase ocrIngredients raw)) /\
    d <> original c.
Proof.
  rewrite verifyIngredients_eq. cbn [corrections dbIngredients]. intros Hc.
  apply in_flat_map in Hc as (o & Ho & Hc).
  pose proof (token_corrections_original _ _ _ _ Hc) as (Eo & Hq & _).
  destruct (best_match_positive toLowerCase (parseIngredients raw) o)
    as (d & Ed & Hd).
  { eapply Qlt_trans; [|exact Hq]. reflexivity. }
  unfold token_corrections in Hc. rewrite Ed in Hc.
  destruct (Qgtb _ _); cbn [andb] in Hc; [|destruct Hc].
  destruct (strict_neq o (Some d)) eqn:En; [|destruct Hc].
  destruct Hc as [<- | []]. cbn [original corrected].
  split; [exact Ho|]. exists d. repeat split; auto.
  apply strict_neq_true in En. congruence.
Qed.

Lemma correction_is_db_token_witness :
  In (mkCorrection [65; 66; 67; 68]%Z (Some [97; 98; 99; 100]%Z) 100)
     (corrections (verifyIngredients ascii_toLowerCase [[65; 66; 67; 68]%Z]
                     (Some [97; 98; 99; 100]%Z))) /\
  In [65; 66; 67; 68]%Z [[65; 66; 67; 68]%Z].
Proof.
  split; [left; reflexivity|].
  apply (correction_is_db_token ascii_toLowerCase [[65; 66; 67; 68]%Z]
           (Some [97; 98; 99; 100]%Z)
           (mkCorrection [65; 66; 67; 68]%Z (Some [97; 98; 99; 100]%Z) 100)).
  left; reflexivity.
Defined.

(** X16.  An OCR token that is a DB token up to case is resolved to the
    first DB token with that lower-casing; when the spelling differs, the
    correction carries the confidence 100. *)
Theorem exact_match_up_to_case (toLowerCase : jsstring -> jsstring)
    (raw : option jsstring) (before after : list jsstring) (o d : jsstring) :
  parseIngredients raw = before ++ d :: after ->
  toLowerCase d = toLowerCase o -> toLowerCase o <> [] ->
  (forall x, In x before -> toLowerCase x <> toLowerCase o) ->
  verified (verifyIngredients toLowerCase [o] raw) = [Some d] /\
  corrections (verifyIngredients toLowerCase [o] raw)
  = if strict_neq o (Some d) then [mkCorrection o (Some d) 100] else [].
Proof.
  intros Hdb Hd Ho Hfirst.
  rewrite verifyIngredients_eq. cbn [verified corrections map flat_map].
  destruct (token_exact toLowerCase _ before after o d Hdb Hd Ho Hfirst)
    as [-> ->].
  now rewrite app_nil_r.
Qed.

Lemma exact_match_up_to_case_witness :
  (parseIngredients (Some [97; 98; 99; 100]%Z) = [] ++ [97; 98; 99; 100]%Z :: [] /\
   ascii_toLowerCase [97; 98; 99; 100]%Z = ascii_toLowerCase [65; 66; 67; 68]%Z /\
   ascii_toLowerCase [65; 66; 67; 68]%Z <> [] /\
   (forall x, In x [] -> ascii_toLowerCase x <> ascii_toLowerCase [65; 66; 67; 68]%Z)) /\
  verified (verifyIngredients ascii_toLowerCase [[65; 66; 67; 68]%Z]
              (Some [97; 98; 99; 100]%Z))
  = [Some [97; 98; 99; 100]%Z].
Proof.
  split.
  - split; [reflexivity|]. split; [reflexivity|].
    split; [discriminate | intros x []].
  - apply (exact_match_up_to_case ascii_toLowerCase (Some [97; 98; 99; 100]%Z)
             [] [] [65; 66; 67; 68]%Z [97; 98; 99; 100]%Z);
      [reflexivity | reflexivity | discriminate | intros x []].
Defined.

(** X17.  Reconciling is idempotent: the verified list, reconciled again
    against the same DB text, comes back unchanged and without correction
    (for a lower-casing that keeps non-empty strings non-empty). *)
Theorem verifyIngredients_idempotent (toLowerCase : jsstring -> jsstring)
    (ocrIngredients : list jsstring) (raw : option jsstring) :
  (forall s, s <> [] -> toLowerCase s <> []) ->
  exists again : list jsstring,
    verified (verifyIngredients toLowerCase ocrIngredients raw)
    = map Some again /\
    verifyIngredients toLowerCase again raw
    = mkReconciled (map Some again) [] (parseIngredients raw).
Proof.
  intros Hlower. rewrite verifyIngredients_eq. cbn [verified].
  set (db := parseIngredients raw).
  assert (Hdb : Forall (fun d => d <> []) db)
    by apply parseIngredients_nonempty.
  induction ocrIngredients as [|o ocr (again & Hv & Hrun)].
  - exists []. split; reflexivity.
  - destruct (token_verified_some toLowerCase db o) as [v Ev].
    destruct (token_fixed toLowerCase db o v Hlower Hdb Ev) as [Hfix Hnone].
    exists (v :: again). cbn [map]. rewrite Ev, Hv. split; [reflexivity|].
    rewrite verifyIngredients_eq in *. fold db in Hrun |- *.
    injection Hrun as Hrun1 Hrun2.
    cbn [map flat_map]. now rewrite Hfix, Hnone, Hrun1, Hrun2.
Qed.

Lemma verifyIngredients_idempotent_witness :
  (forall s, s <> [] -> ascii_toLowerCase s <> []) /\
  exists again : list jsstring,
    verified (verifyIngredients ascii_toLowerCase [[65; 66; 67; 68]%Z]
                (Some [97; 98; 99; 100]%Z))
    = map Some again /\
    verifyIngredients ascii_toLowerCase again (Some [97; 98; 99; 100]%Z)
    = mkReconciled (map Some again) []
        (parseIngredients (Some [97; 98; 99; 100]%Z)).
Proof.
  split; [exact ascii_toLowerCase_nonempty|].
  apply (verifyIngredients_idempotent ascii_toLowerCase [[65; 66; 67; 68]%Z]
           (Some [97; 98; 99; 100]%Z)).
  exact ascii_toLowerCase_nonempty.
Defined.

(** ** The orchestrator, continued *)

Lemma searchFoodInDB_found {E : Type}
    (axios_get : jsstring -> outcome E (option ResponseData))
    (productName : jsstring) (product : DbProduct) :
  searchFoodInDB axios_get productName = Returns (Some product) <->
  exists rest,
    axios_get productName
    = Returns (Some (mkData (Some (mkBody (Some (product :: rest)))))).
Proof.
  unfold searchFoodInDB, try_catch, bind.
  destruct (axios_get productName) as [[[[[[[|p its]|]]|]]|]|e];
    cbn [body items]; split; try discriminate;
    try (intros [rest H]; discriminate).
  - intros H. injection H as ->. eauto.
  - intros [rest H]. injection H as -> _. reflexivity.
Qed.


(** X19.  Only the first item of the store's answer counts: two answers
    with the same first item give the same result. *)
Theorem only_first_item_counts {E : Type}
    (toLowerCase : jsstring -> jsstring)
    (axios_get axios_get' : jsstring -> outcome E (option ResponseData))
    (error_message : E -> jsstring)
    (productName : jsstring) (manufacturer : option jsstring)
    (ingredients : list jsstring) (product : DbProduct)
    (rest rest' : list DbProduct) :
  axios_get productName
  = Returns (Some (mkData (Some (mkBody (Some (product :: rest)))))) ->
  axios_get' productName
  = Returns (Some (mkData (Some (mkBody (Some (product :: rest')))))) ->
  verify_food_label toLowerCase axios_get error_message
                    productName manufacturer ingredients
  = verify_food_label toLowerCase axios_get' error_message
                      productName manufacturer ingredients.
Proof.
  intros H H'.
  assert (Hs : searchFoodInDB axios_get productName = Returns (Some product))
    by (apply searchFoodInDB_found; eauto).
  assert (Hs' : searchFoodInDB axios_get' productName = Returns (Some product))
    by (apply searchFoodInDB_found; eauto).
  unfold verify_food_label. now rewrite Hs, Hs'.
Qed.

Lemma only_first_item_counts_witness :
  (store_of (product_of_raw milgaru) milgaru
   = Returns (Some (mkData (Some (mkBody (Some (product_of_raw milgaru :: [])))))) /\
   (fun _ : jsstring =>
      @Returns unit _
        (Some (mkData (Some (mkBody (Some [product_of_raw milgaru;
                                          product_of_raw milgaryu])))))) milgaru
   = Returns (Some (mkData (Some (mkBody (Some (product_of_raw milgaru
                                                 :: [product_of_raw milgaryu]))))))) /\
  verify_food_label ascii_toLowerCase (store_of (product_of_raw milgaru))
                    (fun _ => []) milgaru None [milgaryu]
  = verify_food_label ascii_toLowerCase
      (fun _ : jsstring =>
         @Returns unit _
           (Some (mkData (Some (mkBody (Some [product_of_raw milgaru;
                                             product_of_raw milgaryu]))))))
      (fun _ => []) milgaru None [milgaryu].
Proof.
  split; [split; reflexivity|].
  apply (only_first_item_counts ascii_toLowerCase
           (store_of (product_of_raw milgaru))
           (fun _ : jsstring =>
              @Returns unit _
                (Some (mkData (Some (mkBody (Some [product_of_raw milgaru;
                                                  product_of_raw milgaryu]))))))
           (fun _ => []) milgaru None [milgaryu] (product_of_raw milgaru)
           [] [product_of_raw milgaryu]); reflexivity.
Defined.

(** X20.  When a record is found, the confidence is 100 exactly when the
    verified ingredient list is the OCR list itself, and 85 otherwise. *)
Theorem confidence_100_iff_unchanged {E : Type}
    (toLowerCase : jsstring -> jsstring)
    (axios_get : jsstring -> outcome E (option ResponseData))
    (error_message : E -> jsstring)
    (productName : jsstring) (manufacturer : option jsstring)
    (ingredients : list jsstring) (product : DbProduct) :
  searchFoodInDB axios_get productName = Returns (Some product) ->
  exists info views cs score message,
    verify_food_label toLowerCase axios_get error_message
                      productName manufacturer ingredients
    = Returns (VerifiedResult true info views cs score message) /\
    iv_original views = ingredients /\
    (score = 100%Z <-> iv_verified views = map Some ingredients) /\
    (score = 85%Z <-> iv_verified views <> map Some ingredients).
Proof.
  intros H. unfold verify_food_label. rewrite H. cbn [bind try_catch].
  do 5 eexists. split; [reflexivity|]. cbn [iv_original iv_verified].
  split; [reflexivity|].
  rewrite verifyIngredients_eq. cbn [corrections verified].
  pose proof (corrections_nil_iff toLowerCase
                (parseIngredients
                   (js_or (js_or (rawmtrl_nm product) (RAWMTRL_NM product))
                          (Some [])))
                ingredients) as Hiff.
  destruct (flat_map _ ingredients) as [|c cs]; cbn [length Nat.eqb].
  - assert (Hsame : map (token_verified toLowerCase
                           (parseIngredients
                              (js_or (js_or (rawmtrl_nm product)
                                            (RAWMTRL_NM product)) (Some []))))
                        ingredients = map Some ingredients)
      by now apply Hiff.
    split; split; auto; try discriminate.
    intros Hne. contradiction.
  - assert (Hdiff : map (token_verified toLowerCase
                           (parseIngredients
                              (js_or (js_or (rawmtrl_nm product)
                                            (RAWMTRL_NM product)) (Some []))))
                        ingredients <> map Some ingredients)
      by (intros Hm; apply Hiff in Hm; discriminate).
    split; split; auto; try discriminate.
    intros Hm. contradiction.
Qed.

Lemma confidence_100_iff_unchanged_witness :
  searchFoodInDB (store_of (product_of_raw milgaru)) milgaru
  = Returns (Some (product_of_raw milgaru)) /\
  exists info views cs score message,
    verify_food_label ascii_toLowerCase (store_of (product_of_raw milgaru))
                      (fun _ => []) milgaru None [milgaryu]
    = Returns (VerifiedResult true info views cs score message) /\
    iv_original views = [milgaryu].
Proof.
  split; [reflexivity|].
  destruct (confidence_100_iff_unchanged ascii_toLowerCase
              (store_of (product_of_raw milgaru)) (fun _ => [])
              milgaru None [milgaryu] (product_of_raw milgaru) eq_refl)
    as (info & views & cs & score & message & H & Ho & _).
  exists info, views, cs, score, message. split; [exact H | exact Ho].
Defined.

(** The best similarity is the greatest similarity of a DB token, or 0. *)
Lemma best_match_greatest (toLowerCase : jsstring -> jsstring)
    (db : list jsstring) (o d : jsstring) :
  In d db ->
  (token_similarity toLowerCase o d <= snd (best_match toLowerCase db o))%Q.
Proof.
  intros Hd.
  destruct (best_match_first_best toLowerCase db o)
    as [(_ & -> & Hall) | (b & d' & a & Hdb & _ & -> & _ & Hb & Ha)].
  - now apply Hall.
  - rewrite Hdb in Hd. apply in_app_or in Hd as [Hd | [<- | Hd]].
    + apply Qlt_le_weak. now apply Hb.
    + apply Qle_refl.
    + now apply Ha.
Qed.

(** X21.  The threshold decides.  If some DB token is more than 0.70
    similar to the OCR token, the token is replaced by a DB token of
    greatest similarity; if none is, the token is kept and nothing is
    corrected. *)
Theorem threshold_decides (toLowerCase : jsstring -> jsstring)
    (raw : option jsstring) (o : jsstring) :
  ((exists d, In d (parseIngredients raw) /\
              (7 # 10 < token_similarity toLowerCase o d)%Q) ->
   exists best,
     verified (verifyIngredients toLowerCase [o] raw) = [Some best] /\
     In best (parseIngredients raw) /\
     (7 # 10 < token_similarity toLowerCase o best)%Q /\
     forall x, In x (parseIngredients raw) ->
               (token_similarity toLowerCase o x
                <= token_similarity toLowerCase o best)%Q) /\
  ((forall d, In d (parseIngredients raw) ->
              (token_similarity toLowerCase o d <= 7 # 10)%Q) ->
   verified (verifyIngredients toLowerCase [o] raw) = [Some o] /\
   corrections (verifyIngredients toLowerCase [o] raw) = []).
Proof.
  rewrite verifyIngredients_eq. cbn [verified corrections map flat_map].
  set (db := parseIngredients raw).
  pose proof (best_match_first_best toLowerCase db o) as Hbest.
  split.
  - intros (d & Hd & Hsim).
    assert (Hq : (7 # 10 < snd (best_match toLowerCase db o))%Q)
      by (eapply Qlt_le_trans; [exact Hsim | now apply best_match_greatest]).
    destruct Hbest as [(_ & E & _) | (b & d' & a & Hdb & Em & Eq & _)].
    + rewrite E in Hq. discriminate.
    + exists d'. unfold token_verified.
      replace (Qgtb (snd (best_match toLowerCase db o)) (7 # 10)) with true
        by (symmetry; now apply Qgtb_lt).
      rewrite Em. split; [reflexivity|].
      split; [rewrite Hdb; apply in_elt|].
      rewrite <- Eq. split; [exact Hq|].
      intros x Hx. now apply best_match_greatest.
  - intros Hall.
    assert (Hq : Qgtb (snd (best_match toLowerCase db o)) (7 # 10) = false).
    { apply Qgtb_le.
      destruct Hbest as [(_ & -> & _) | (b & d' & a & Hdb & _ & -> & _)].
      - discriminate.
      - apply Hall. rewrite Hdb. apply in_elt. }
    unfold token_verified, token_corrections. now rewrite Hq.
Qed.

Lemma threshold_decides_witness :
  (exists d, In d (parseIngredients (Some [97; 98; 99; 100]%Z)) /\
             (7 # 10 < token_similarity ascii_toLowerCase
                         [65; 66; 67; 68]%Z d)%Q) /\
  exists best,
    verified (verifyIngredients ascii_toLowerCase [[65; 66; 67; 68]%Z]
                (Some [97; 98; 99; 100]%Z)) = [Some best] /\
    In best (parseIngredients (Some [97; 98; 99; 100]%Z)).
Proof.
  assert (H : exists d, In d (parseIngredients (Some [97; 98; 99; 100]%Z)) /\
                        (7 # 10 < token_similarity ascii_toLowerCase
                                    [65; 66; 67; 68]%Z d)%Q).
  { exists [97; 98; 99; 100]%Z. split; [left; reflexivity | reflexivity]. }
  split; [exact H|].
  destruct (proj1 (threshold_decides ascii_toLowerCase
                     (Some [97; 98; 99; 100]%Z) [65; 66; 67; 68]%Z) H)
    as (best & Hv & Hin & _).
  exists best. split; [exact Hv | exact Hin].
Defined.
